(** * Eigen, AltiVec/VSX complex packets: [Eigen/src/Core/arch/AltiVec/Complex.h]

    A shallow embedding of the complex packet primitives ([Packet2cf], two
    single-precision complex values per 128-bit register, and [Packet1cd], one
    double-precision complex value per register) together with the vector
    intrinsics they are written with, and the properties of the specification
    settled against them.

    Conventions.
    - A register is sixteen bytes, numbered as AltiVec numbers them: byte 0 is
      the most significant byte of element 0.  The casts between [Packet4f],
      [Packet4ui], [Packet16uc], [Packet2d] ... re-interpret the same sixteen
      bytes, so all these types are the one type [v128].
    - The element order is the one the source documents in its comments and
      the layout of a complex packet is [re0, im0, re1, im1] (resp. [re, im]).
    - The real arithmetic on lanes ([vec_add], [vec_madd], [pdiv] on
      [Packet4f] and [Packet2d]) belongs to the real-scalar kernel, which is
      an interface here ([RealKernel]); an IEEE-754 instance built on
      [SpecFloat] is given to run the code on concrete numbers. *)

From Stdlib Require Import ZArith List Bool Lia.
From Stdlib Require Import Floats.SpecFloat.
Import ListNotations.
Open Scope Z_scope.

Set Implicit Arguments.
Set Primitive Projections.

(** ** Registers *)

(** A 32-bit element as its four bytes, most significant first. *)
Record word := W { wb0 : Z; wb1 : Z; wb2 : Z; wb3 : Z }.

(** A 64-bit element: two consecutive words of the register. *)
Record dword := D { hi : word; lo : word }.

(** The 128-bit vector register: four word elements. *)
Record v128 := V { e0 : word; e1 : word; e2 : word; e3 : word }.

Definition Packet4f := v128.
Definition Packet4i := v128.
Definition Packet4ui := v128.
Definition Packet16uc := v128.
Definition Packet2d := v128.
Definition Packet2l := v128.
Definition Packet2ul := v128.

Definition word_bytes (w : word) : list Z := [wb0 w; wb1 w; wb2 w; wb3 w].

Definition bytes_of (a : v128) : list Z :=
  word_bytes (e0 a) ++ word_bytes (e1 a) ++ word_bytes (e2 a) ++ word_bytes (e3 a).

Definition byte_at (l : list Z) (i : nat) : Z := nth i l 0.

Definition word_at (l : list Z) (i : nat) : word :=
  W (byte_at l i) (byte_at l (i + 1)) (byte_at l (i + 2)) (byte_at l (i + 3)).

Definition of_bytes (l : list Z) : v128 :=
  V (word_at l 0) (word_at l 4) (word_at l 8) (word_at l 12).

(** The two double lanes of a register seen as [Packet2d]. *)
Definition d0 (a : v128) : dword := D (e0 a) (e1 a).
Definition d1 (a : v128) : dword := D (e2 a) (e3 a).
Definition V2 (x y : dword) : v128 := V (hi x) (lo x) (hi y) (lo y).

(** Literals: a register given by its sixteen bytes, by four 32-bit values,
    or by two 64-bit values. *)
Definition word_of_Z (n : Z) : word :=
  W ((n / 16777216) mod 256) ((n / 65536) mod 256) ((n / 256) mod 256) (n mod 256).

Definition Z_of_word (w : word) : Z :=
  wb0 w * 16777216 + wb1 w * 65536 + wb2 w * 256 + wb3 w.

Definition dword_of_Z (n : Z) : dword :=
  D (word_of_Z (n / 4294967296)) (word_of_Z (n mod 4294967296)).

Definition Z_of_dword (x : dword) : Z :=
  Z_of_word (hi x) * 4294967296 + Z_of_word (lo x).

Definition v4 (a b c d : Z) : v128 :=
  V (word_of_Z a) (word_of_Z b) (word_of_Z c) (word_of_Z d).

Definition v2 (a b : Z) : v128 := V2 (dword_of_Z a) (dword_of_Z b).

(** ** Vector intrinsics *)

(** [vec_perm a b p]: byte [i] of the result is byte [p[i] mod 32] of the
    thirty-two bytes of [a] followed by [b]. *)
Definition vec_perm (a b : v128) (p : Packet16uc) : v128 :=
  let src := bytes_of a ++ bytes_of b in
  of_bytes (map (fun k => byte_at src (Z.to_nat (Z.land k 31))) (bytes_of p)).

(** [vec_sld a b n]: the sixteen bytes starting at byte [n] of [a] followed
    by [b]. *)
Definition vec_sld (a b : v128) (n : nat) : v128 :=
  of_bytes (firstn 16 (skipn n (bytes_of a ++ bytes_of b))).

(** [vec_splat] on a [Packet4ui] and on a [Packet16uc]. *)
Definition elt (a : v128) (i : nat) : word :=
  match i with
  | O => e0 a
  | 1%nat => e1 a
  | 2%nat => e2 a
  | _ => e3 a
  end.

Definition vec_splat_4ui (a : Packet4ui) (i : nat) : Packet4ui :=
  V (elt a i) (elt a i) (elt a i) (elt a i).

Definition vec_splat_16uc (a : Packet16uc) (i : nat) : Packet16uc :=
  let b := byte_at (bytes_of a) i in
  V (W b b b b) (W b b b b) (W b b b b) (W b b b b).

(** [vec_mergeh] and [vec_mergel] on word elements. *)
Definition vec_mergeh (a b : Packet4ui) : Packet4ui := V (e0 a) (e0 b) (e1 a) (e1 b).
Definition vec_mergel (a b : Packet4ui) : Packet4ui := V (e2 a) (e2 b) (e3 a) (e3 b).

Definition map2_word (f : Z -> Z -> Z) (x y : word) : word :=
  W (f (wb0 x) (wb0 y)) (f (wb1 x) (wb1 y)) (f (wb2 x) (wb2 y)) (f (wb3 x) (wb3 y)).

Definition map2_bytes (f : Z -> Z -> Z) (a b : v128) : v128 :=
  V (map2_word f (e0 a) (e0 b)) (map2_word f (e1 a) (e1 b))
    (map2_word f (e2 a) (e2 b)) (map2_word f (e3 a) (e3 b)).

(** [vec_add] on unsigned chars: bytewise, modulo 256. *)
Definition vec_add_16uc (a b : Packet16uc) : Packet16uc :=
  map2_bytes (fun x y => (x + y) mod 256) a b.

(** [vec_xor]: bitwise, whatever the element type. *)
Definition word_xor (x y : word) : word := map2_word Z.lxor x y.
Definition vec_xor (a b : v128) : v128 := map2_bytes Z.lxor a b.

(** [vec_abs] on signed 32-bit integers (two's complement, wrapping). *)
Definition signed32 (w : word) : Z :=
  let u := Z_of_word w in if u <? 2147483648 then u else u - 4294967296.

Definition vec_abs_4i (a : Packet4i) : Packet4i :=
  let f w := word_of_Z (Z.abs (signed32 w) mod 4294967296) in
  V (f (e0 a)) (f (e1 a)) (f (e2 a)) (f (e3 a)).

(** ** Constants of [PacketMath.h] *)

(** Modelled from the spec: the constants below are declared in the AltiVec
    [PacketMath.h], which is not among the sources; their values are the ones
    under which every constant of [Complex.h] comes out as its own comment
    documents it (see [constants_as_documented]). *)
Definition p4i_ZERO : Packet4i := v4 0 0 0 0.
Definition p4f_ZERO : Packet4f := v4 0 0 0 0.
Definition p2l_ZERO : Packet2l := v2 0 0.
Definition p4i_MINUS16 : Packet4i :=
  v4 4294967280 4294967280 4294967280 4294967280.
(* minus zero, i.e. the sign bit alone, in every lane *)
Definition p4f_ZERO_ : Packet4f := v4 2147483648 2147483648 2147483648 2147483648.
Definition p2d_ZERO_ : Packet2d := v2 9223372036854775808 9223372036854775808.
Definition p16uc_FORWARD : Packet16uc :=
  of_bytes [0; 1; 2; 3; 4; 5; 6; 7; 8; 9; 10; 11; 12; 13; 14; 15].
Definition p16uc_REVERSE : Packet16uc :=
  of_bytes [12; 13; 14; 15; 8; 9; 10; 11; 4; 5; 6; 7; 0; 1; 2; 3].
Definition p16uc_DUPLICATE : Packet16uc :=
  of_bytes [0; 1; 2; 3; 0; 1; 2; 3; 4; 5; 6; 7; 4; 5; 6; 7].

(** ** Constants of [Complex.h] *)

(** The byte order the file is compiled for ([#ifdef _BIG_ENDIAN]). *)
Inductive byte_order := BigEndian | LittleEndian.

Definition p4ui_CONJ_XOR (bo : byte_order) : Packet4ui :=
  match bo with
  | BigEndian => vec_mergeh p4i_ZERO p4f_ZERO_
  | LittleEndian => vec_mergeh p4f_ZERO_ p4i_ZERO
  end.

(** Declared in the [#else] branch only: the double-precision half of the
    file exists for the little-endian build. *)
Definition p2ul_CONJ_XOR : Packet2ul := vec_sld p2d_ZERO_ p2l_ZERO 8.

Definition p16uc_COMPLEX_RE : Packet16uc :=
  vec_sld (vec_splat_4ui p16uc_FORWARD 0) (vec_splat_4ui p16uc_FORWARD 2) 8.
Definition p16uc_COMPLEX_IM : Packet16uc :=
  vec_sld p16uc_DUPLICATE (vec_splat_4ui p16uc_FORWARD 3) 8.
Definition p16uc_COMPLEX_REV : Packet16uc := vec_sld p16uc_REVERSE p16uc_REVERSE 8.
Definition p16uc_COMPLEX_REV2 : Packet16uc := vec_sld p16uc_FORWARD p16uc_FORWARD 8.
Definition p16uc_PSET_HI : Packet16uc := vec_mergeh p16uc_COMPLEX_RE p16uc_COMPLEX_IM.
Definition p16uc_PSET_LO : Packet16uc := vec_mergel p16uc_COMPLEX_RE p16uc_COMPLEX_IM.
Definition p16uc_COMPLEX_MASK16 : Packet16uc :=
  vec_sld p4i_ZERO (vec_splat_16uc (vec_abs_4i p4i_MINUS16) 3) 8.
Definition p16uc_COMPLEX_TRANSPOSE_0 : Packet16uc :=
  vec_add_16uc p16uc_PSET_HI p16uc_COMPLEX_MASK16.
Definition p16uc_COMPLEX_TRANSPOSE_1 : Packet16uc :=
  vec_add_16uc p16uc_PSET_LO p16uc_COMPLEX_MASK16.

(** ** The real-scalar kernel *)

(** The lane arithmetic of [Packet4f] and [Packet2d] ([vec_add], [vec_madd],
    [pdiv]) is supplied by the underlying real packet layer.  It acts on the
    bit patterns of the lanes. *)
Class RealKernel := {
  add_f32 : word -> word -> word;
  madd_f32 : word -> word -> word -> word;
  div_f32 : word -> word -> word;
  add_f64 : dword -> dword -> dword;
  madd_f64 : dword -> dword -> dword -> dword;
  div_f64 : dword -> dword -> dword
}.

(** ** Memory *)

(** Byte-addressed memory, for the loads through a reference. *)
Definition memory := Z -> Z.

Definition load16 (m : memory) (p : Z) : v128 :=
  of_bytes (map (fun i => m (p + i))
              [0; 1; 2; 3; 4; 5; 6; 7; 8; 9; 10; 11; 12; 13; 14; 15]).

(** Modelled from the spec: [pload] and [ploadu] on real packets live in
    [PacketMath.h].  "load requires the source address satisfy the register's
    natural alignment, loadUnaligned works for any address"; calling the
    aligned load on another address is undefined ([None]). *)
Definition pload_v128 (m : memory) (p : Z) : option v128 :=
  if p mod 16 =? 0 then Some (load16 m p) else None.

Definition ploadu_v128 (m : memory) (p : Z) : option v128 := Some (load16 m p).

(** Arrays of elements addressed by index from a base pointer, with the log
    of the element accesses a function performs. *)
Inductive access := Load (i : Z) | Store (i : Z).

Section Arrays.
Variable T : Type.

Definition array := Z -> T.

Definition Mem (A : Type) := array -> A * array * list access.

Definition ret {A} (x : A) : Mem A := fun a => (x, a, []).

Definition bind {A B} (c : Mem A) (f : A -> Mem B) : Mem B :=
  fun a =>
    let '(x, a1, l1) := c a in
    let '(y, a2, l2) := f x a1 in
    (y, a2, l1 ++ l2).

(** [p[i]] as an rvalue and [p[i] = x]. *)
Definition load (i : Z) : Mem T := fun a => (a i, a, [Load i]).

Definition store (i : Z) (x : T) : Mem unit :=
  fun a => (tt, (fun j => if j =? i then x else a j), [Store i]).

Definition result {A} (r : A * array * list access) : A := fst (fst r).
Definition final {A} (r : A * array * list access) : array := snd (fst r).
Definition trace {A} (r : A * array * list access) : list access := snd r.
End Arrays.

Arguments ret {T A} x.
Arguments bind {T A B} c f.
Arguments load {T} i.
Arguments store {T} i x.
Arguments result {T A} r.
Arguments final {T A} r.
Arguments trace {T A} r.

Notation "x <- c ;; k" := (bind c (fun x => k))
  (at level 61, c at next level, right associativity).
Notation "c ;;; k" := (bind c (fun _ => k))
  (at level 61, right associativity).

(** ** Complex scalars and packets *)

(** [std::complex<float>] and [std::complex<double>]: real part first. *)
Record complexf := Cf { re_f : word; im_f : word }.
Record complexd := Cd { re_d : dword; im_d : dword }.

(** [struct Packet2cf { Packet4f v; }] and [struct Packet1cd { Packet2d v; }]
    (the field of the second is written [vd]). *)
Record Packet2cf := mk_Packet2cf { v : Packet4f }.
Record Packet1cd := mk_Packet1cd { vd : Packet2d }.

(** A local [std::complex<T> EIGEN_ALIGN16 x[2]] is a pair; a register covers
    both elements of a [complex<float>[2]] and the first element only of a
    [complex<double>[2]]. *)
Definition pstore_complexf (x : Packet4f) : complexf * complexf :=
  (Cf (e0 x) (e1 x), Cf (e2 x) (e3 x)).

Definition pstore_complexd (x : Packet2d) : complexd := Cd (d0 x) (d1 x).

Definition vec_ld_2cf (af : complexf * complexf) : Packet4f :=
  V (re_f (fst af)) (im_f (fst af)) (re_f (snd af)) (im_f (snd af)).

Definition vec_st_2cf (x : Packet4f) (af : complexf * complexf) : complexf * complexf :=
  pstore_complexf x.

Definition vec_ld_1cd (af : complexd * complexd) : Packet2d :=
  V2 (re_d (fst af)) (im_d (fst af)).

Definition vec_st_1cd (x : Packet2d) (af : complexd * complexd) : complexd * complexd :=
  (pstore_complexd x, snd af).

(** The complex scalar stored at an address. *)
Definition word_in (m : memory) (p : Z) : word :=
  W (m p) (m (p + 1)) (m (p + 2)) (m (p + 3)).
Definition dword_in (m : memory) (p : Z) : dword := D (word_in m p) (word_in m (p + 4)).
Definition complexf_in (m : memory) (p : Z) : complexf := Cf (word_in m p) (word_in m (p + 4)).
Definition complexd_in (m : memory) (p : Z) : complexd := Cd (dword_in m p) (dword_in m (p + 8)).

(** [PacketBlock<Packet,2>]: [packet[0]] and [packet[1]]. *)
Record PacketBlock (P : Type) := mk_PacketBlock { packet0 : P; packet1 : P }.

(** ** The packet primitives *)

Section Complex.
Context {K : RealKernel}.
(** The byte order selected at compile time. *)
Variable bo : byte_order.

(** *** Real packets: lane-wise arithmetic of the kernel *)

Definition vec_add_4f (a b : Packet4f) : Packet4f :=
  V (add_f32 (e0 a) (e0 b)) (add_f32 (e1 a) (e1 b))
    (add_f32 (e2 a) (e2 b)) (add_f32 (e3 a) (e3 b)).

Definition vec_madd_4f (a b c : Packet4f) : Packet4f :=
  V (madd_f32 (e0 a) (e0 b) (e0 c)) (madd_f32 (e1 a) (e1 b) (e1 c))
    (madd_f32 (e2 a) (e2 b) (e2 c)) (madd_f32 (e3 a) (e3 b) (e3 c)).

Definition pdiv_Packet4f (a b : Packet4f) : Packet4f :=
  V (div_f32 (e0 a) (e0 b)) (div_f32 (e1 a) (e1 b))
    (div_f32 (e2 a) (e2 b)) (div_f32 (e3 a) (e3 b)).

Definition padd_Packet4f (a b : Packet4f) : Packet4f := vec_add_4f a b.

Definition vec_add_2d (a b : Packet2d) : Packet2d :=
  V2 (add_f64 (d0 a) (d0 b)) (add_f64 (d1 a) (d1 b)).

Definition vec_madd_2d (a b c : Packet2d) : Packet2d :=
  V2 (madd_f64 (d0 a) (d0 b) (d0 c)) (madd_f64 (d1 a) (d1 b) (d1 c)).

Definition pdiv_Packet2d (a b : Packet2d) : Packet2d :=
  V2 (div_f64 (d0 a) (d0 b)) (div_f64 (d1 a) (d1 b)).

Definition padd_Packet2d (a b : Packet2d) : Packet2d := vec_add_2d a b.

(** *** float: [Packet2cf] *)

(** [pset1<Packet2cf>(const std::complex<float>& from)]; [from] is the
    address of the scalar. *)
Definition pset1_Packet2cf (m : memory) (from : Z) : option Packet2cf :=
  let res :=
    if Z.rem from 16 =? 0 then pload_v128 m from else ploadu_v128 m from in
  match res with
  | Some r => Some (mk_Packet2cf (vec_perm r r p16uc_PSET_HI))
  | None => None
  end.

(** [pgather] and [pscatter]; [af] is the local array as the function finds
    it on entry (indeterminate). *)
Definition pgather_Packet2cf (af : complexf * complexf) (stride : Z)
  : Mem complexf Packet2cf :=
  x0 <- load (0 * stride) ;;
  let af := (x0, snd af) in
  x1 <- load (1 * stride) ;;
  let af := (fst af, x1) in
  ret (mk_Packet2cf (vec_ld_2cf af)).

Definition pscatter_Packet2cf (af : complexf * complexf) (from : Packet2cf) (stride : Z)
  : Mem complexf unit :=
  let af := vec_st_2cf (v from) af in
  store (0 * stride) (fst af) ;;;
  store (1 * stride) (snd af).

Definition padd_Packet2cf (a b : Packet2cf) : Packet2cf :=
  mk_Packet2cf (vec_add_4f (v a) (v b)).

Definition pconj_Packet2cf (a : Packet2cf) : Packet2cf :=
  mk_Packet2cf (vec_xor (v a) (p4ui_CONJ_XOR bo)).

Definition pmul_Packet2cf (a b : Packet2cf) : Packet2cf :=
  (* Permute and multiply the real parts of a and b *)
  let v1 := vec_perm (v a) (v a) p16uc_COMPLEX_RE in
  (* Get the imaginary parts of a *)
  let v2 := vec_perm (v a) (v a) p16uc_COMPLEX_IM in
  (* multiply a_re * b *)
  let v1 := vec_madd_4f v1 (v b) p4f_ZERO in
  (* multiply a_im * b and get the conjugate result *)
  let v2 := vec_madd_4f v2 (v b) p4f_ZERO in
  let v2 := vec_xor v2 (p4ui_CONJ_XOR bo) in
  (* permute back to a proper order *)
  let v2 := vec_perm v2 v2 p16uc_COMPLEX_REV in
  mk_Packet2cf (vec_add_4f v1 v2).

Definition pload_Packet2cf (m : memory) (from : Z) : option Packet2cf :=
  option_map mk_Packet2cf (pload_v128 m from).

Definition ploadu_Packet2cf (m : memory) (from : Z) : option Packet2cf :=
  option_map mk_Packet2cf (ploadu_v128 m from).

Definition ploaddup_Packet2cf (m : memory) (from : Z) : option Packet2cf :=
  pset1_Packet2cf m from.

Definition pfirst_Packet2cf (a : Packet2cf) : complexf :=
  let res := pstore_complexf (v a) in
  fst res.

Definition preverse_Packet2cf (a : Packet2cf) : Packet2cf :=
  let rev_a := vec_perm (v a) (v a) p16uc_COMPLEX_REV2 in
  mk_Packet2cf rev_a.

Definition predux_Packet2cf (a : Packet2cf) : complexf :=
  let b := vec_sld (v a) (v a) 8 in
  let b := padd_Packet4f (v a) b in
  pfirst_Packet2cf (mk_Packet2cf b).

Definition predux_mul_Packet2cf (a : Packet2cf) : complexf :=
  let b := vec_sld (v a) (v a) 8 in
  let prod := pmul_Packet2cf a (mk_Packet2cf b) in
  pfirst_Packet2cf prod.

(** [conj_helper<Packet2cf, Packet2cf, ConjLhs, ConjRhs>::pmul] for the
    three specialisations of the file; without conjugation the primary
    template is the plain product. *)
Definition conj_helper_Packet2cf_pmul (ConjLhs ConjRhs : bool) (a b : Packet2cf)
  : Packet2cf :=
  match ConjLhs, ConjRhs with
  | false, true => pmul_Packet2cf a (pconj_Packet2cf b)
  | true, false => pmul_Packet2cf (pconj_Packet2cf a) b
  | true, true => pconj_Packet2cf (pmul_Packet2cf a b)
  | false, false => pmul_Packet2cf a b
  end.

Definition conj_helper_Packet2cf_pmadd (ConjLhs ConjRhs : bool) (x y c : Packet2cf)
  : Packet2cf :=
  padd_Packet2cf (conj_helper_Packet2cf_pmul ConjLhs ConjRhs x y) c.

Definition pdiv_Packet2cf (a b : Packet2cf) : Packet2cf :=
  let res := conj_helper_Packet2cf_pmul false true a b in
  let s := vec_madd_4f (v b) (v b) p4f_ZERO in
  mk_Packet2cf
    (pdiv_Packet4f (v res) (vec_add_4f s (vec_perm s s p16uc_COMPLEX_REV))).

Definition pcplxflip_Packet2cf (x : Packet2cf) : Packet2cf :=
  mk_Packet2cf (vec_perm (v x) (v x) p16uc_COMPLEX_REV).

Definition ptranspose_Packet2cf (kernel : PacketBlock Packet2cf) : PacketBlock Packet2cf :=
  let tmp := vec_perm (v (packet0 kernel)) (v (packet1 kernel)) p16uc_COMPLEX_TRANSPOSE_0 in
  let kernel :=
    mk_PacketBlock (packet0 kernel)
      (mk_Packet2cf
         (vec_perm (v (packet0 kernel)) (v (packet1 kernel)) p16uc_COMPLEX_TRANSPOSE_1)) in
  mk_PacketBlock (mk_Packet2cf tmp) (packet1 kernel).

(** *** double: [Packet1cd] *)

Definition pload_Packet1cd (m : memory) (from : Z) : option Packet1cd :=
  option_map mk_Packet1cd (pload_v128 m from).

Definition ploadu_Packet1cd (m : memory) (from : Z) : option Packet1cd :=
  option_map mk_Packet1cd (ploadu_v128 m from).

Definition pset1_Packet1cd (m : memory) (from : Z) : option Packet1cd :=
  let res :=
    if Z.rem from 16 =? 0 then pload_v128 m from else ploadu_v128 m from in
  match res with
  | Some r => Some (mk_Packet1cd (vec_perm r r p16uc_PSET_HI))
  | None => None
  end.

Definition pgather_Packet1cd (af : complexd * complexd) (stride : Z)
  : Mem complexd Packet1cd :=
  x0 <- load (0 * stride) ;;
  let af := (x0, snd af) in
  x1 <- load (1 * stride) ;;
  let af := (fst af, x1) in
  (* pload<Packet1cd>(af): one register, the first element of af *)
  ret (mk_Packet1cd (vec_ld_1cd af)).

Definition pscatter_Packet1cd (af : complexd * complexd) (from : Packet1cd) (stride : Z)
  : Mem complexd unit :=
  (* pstore<std::complex<double> >(af, from): af[0] only *)
  let af := vec_st_1cd (vd from) af in
  store (0 * stride) (fst af) ;;;
  store (1 * stride) (snd af).

Definition padd_Packet1cd (a b : Packet1cd) : Packet1cd :=
  mk_Packet1cd (vec_add_2d (vd a) (vd b)).

Definition pconj_Packet1cd (a : Packet1cd) : Packet1cd :=
  mk_Packet1cd (vec_xor (vd a) p2ul_CONJ_XOR).

Definition pmul_Packet1cd (a b : Packet1cd) : Packet1cd :=
  (* Permute and multiply the real parts of a and b *)
  let a_re := vec_perm (vd a) (vd a) p16uc_PSET_HI in
  (* Get the imaginary parts of a *)
  let a_im := vec_perm (vd a) (vd a) p16uc_PSET_HI in
  (* multiply a_re * b *)
  let v1 := vec_madd_2d a_re (vd b) p2d_ZERO_ in
  (* multiply a_im * b and get the conjugate result *)
  let v2 := vec_madd_2d a_im (vd b) p2d_ZERO_ in
  let v2 := vec_sld v2 v2 8 in
  let v2 := vec_xor v2 p2ul_CONJ_XOR in
  mk_Packet1cd (vec_add_2d v1 v2).

Definition ploaddup_Packet1cd (m : memory) (from : Z) : option Packet1cd :=
  pset1_Packet1cd m from.

Definition pfirst_Packet1cd (a : Packet1cd) : complexd :=
  let res0 := pstore_complexd (vd a) in
  res0.

Definition preverse_Packet1cd (a : Packet1cd) : Packet1cd :=
  let rev_a := vec_perm (vd a) (vd a) p16uc_COMPLEX_REV2 in
  mk_Packet1cd rev_a.

Definition predux_Packet1cd (a : Packet1cd) : complexd :=
  let b := vec_sld (vd a) (vd a) 8 in
  let b := padd_Packet2d (vd a) b in
  pfirst_Packet1cd (mk_Packet1cd b).

Definition predux_mul_Packet1cd (a : Packet1cd) : complexd :=
  let b := vec_sld (vd a) (vd a) 8 in
  let prod := pmul_Packet1cd a (mk_Packet1cd b) in
  pfirst_Packet1cd prod.

Definition conj_helper_Packet1cd_pmul (ConjLhs ConjRhs : bool) (a b : Packet1cd)
  : Packet1cd :=
  match ConjLhs, ConjRhs with
  | false, true => pmul_Packet1cd a (pconj_Packet1cd b)
  | true, false => pmul_Packet1cd (pconj_Packet1cd a) b
  | true, true => pconj_Packet1cd (pmul_Packet1cd a b)
  | false, false => pmul_Packet1cd a b
  end.

Definition conj_helper_Packet1cd_pmadd (ConjLhs ConjRhs : bool) (x y c : Packet1cd)
  : Packet1cd :=
  padd_Packet1cd (conj_helper_Packet1cd_pmul ConjLhs ConjRhs x y) c.

Definition pdiv_Packet1cd (a b : Packet1cd) : Packet1cd :=
  let res := conj_helper_Packet1cd_pmul false true a b in
  let s := vec_madd_2d (vd b) (vd b) p2d_ZERO_ in
  mk_Packet1cd
    (pdiv_Packet2d (vd res) (vec_add_2d s (vec_perm s s p16uc_COMPLEX_REV))).

Definition pcplxflip_Packet1cd (x : Packet1cd) : Packet1cd :=
  mk_Packet1cd (vec_perm (vd x) (vd x) p16uc_COMPLEX_REV).

Definition ptranspose_Packet1cd (kernel : PacketBlock Packet1cd) : PacketBlock Packet1cd :=
  let tmp := vec_perm (vd (packet0 kernel)) (vd (packet1 kernel)) p16uc_COMPLEX_TRANSPOSE_0 in
  let kernel :=
    mk_PacketBlock (packet0 kernel)
      (mk_Packet1cd
         (vec_perm (vd (packet0 kernel)) (vd (packet1 kernel)) p16uc_COMPLEX_TRANSPOSE_1)) in
  mk_PacketBlock (mk_Packet1cd tmp) (packet1 kernel).
End Complex.

(** ** An IEEE-754 real kernel *)

(** Modelled from the spec: the real-scalar SIMD kernel is an external
    collaborator ("plain add/sub/mul/div/fma ... over wide real registers").
    This instance gives its lanes IEEE-754 binary32 and binary64 arithmetic,
    round to nearest even, with the operations of [SpecFloat]; a NaN is
    produced in its canonical quiet encoding. *)
Module IEEE754.
Section Format.
(** [width] bits in all, [prec] bits of precision (the implicit one
    included), infinities at exponent [emax]. *)
Variables width prec emax : Z.

Definition frac_bits : Z := prec - 1.
Definition exp_ones : Z := 2 ^ (width - prec) - 1.
Definition sign_bit (s : bool) : Z := if s then 2 ^ (width - 1) else 0.

Definition decode (n : Z) : spec_float :=
  let s := (n / 2 ^ (width - 1)) mod 2 =? 1 in
  let m := n mod 2 ^ frac_bits in
  let e := (n / 2 ^ frac_bits) mod 2 ^ (width - prec) in
  if e =? 0 then
    match m with
    | Zpos p => S754_finite s p (emin prec emax)
    | _ => S754_zero s
    end
  else if e =? exp_ones then
    if m =? 0 then S754_infinity s else S754_nan
  else
    match m + 2 ^ frac_bits with
    | Zpos p => S754_finite s p (e + emin prec emax - 1)
    | _ => S754_nan
    end.

Definition encode (x : spec_float) : Z :=
  match x with
  | S754_zero s => sign_bit s
  | S754_infinity s => sign_bit s + exp_ones * 2 ^ frac_bits
  | S754_nan => exp_ones * 2 ^ frac_bits + 2 ^ (frac_bits - 1)
  | S754_finite s m e =>
      if Zpos m <? 2 ^ frac_bits then sign_bit s + Zpos m
      else sign_bit s + (e - emin prec emax + 1) * 2 ^ frac_bits
           + (Zpos m - 2 ^ frac_bits)
  end.

(** Fused multiply-add: the product is exact and the sum is rounded
    once. *)
Definition SFfma (x y z : spec_float) : spec_float :=
  match x, y with
  | S754_finite sx mx ex, S754_finite sy my ey =>
      match z with
      | S754_nan => S754_nan
      | S754_infinity _ => z
      | S754_zero _ => SFmul prec emax x y
      | S754_finite _ _ _ =>
          SFadd prec emax
            (S754_finite (xorb sx sy) (Pos.mul mx my) (ex + ey)) z
      end
  | _, _ => SFadd prec emax (SFmul prec emax x y) z
  end.

(** The value [m * 2^e], rounded. *)
Definition number (m e : Z) : Z := encode (binary_normalize prec emax m e false).

Definition lift2 (f : spec_float -> spec_float -> spec_float) (x y : Z) : Z :=
  encode (f (decode x) (decode y)).

Definition add := lift2 (SFadd prec emax).
Definition sub := lift2 (SFsub prec emax).
Definition mul := lift2 (SFmul prec emax).
Definition div := lift2 (SFdiv prec emax).
Definition madd (x y z : Z) : Z := encode (SFfma (decode x) (decode y) (decode z)).
End Format.

Definition on_word (f : Z -> Z -> Z) (x y : word) : word :=
  word_of_Z (f (Z_of_word x) (Z_of_word y)).
Definition on_dword (f : Z -> Z -> Z) (x y : dword) : dword :=
  dword_of_Z (f (Z_of_dword x) (Z_of_dword y)).

(** Literals [m * 2^e]. *)
Definition float (m e : Z) : word := word_of_Z (number 32 24 128 m e).
Definition double (m e : Z) : dword := dword_of_Z (number 64 53 1024 m e).

(** Scalar arithmetic on [float] and [double] (for the scalar complex
    operations the packets are compared with). *)
Definition add32 := on_word (add 32 24 128).
Definition sub32 := on_word (sub 32 24 128).
Definition mul32 := on_word (mul 32 24 128).
Definition div32 := on_word (div 32 24 128).
Definition add64 := on_dword (add 64 53 1024).
Definition sub64 := on_dword (sub 64 53 1024).
Definition mul64 := on_dword (mul 64 53 1024).
Definition div64 := on_dword (div 64 53 1024).

#[global] Instance kernel : RealKernel := {
  add_f32 := add32;
  madd_f32 x y z :=
    word_of_Z (madd 32 24 128 (Z_of_word x) (Z_of_word y) (Z_of_word z));
  div_f32 := div32;
  add_f64 := add64;
  madd_f64 x y z :=
    dword_of_Z (madd 64 53 1024 (Z_of_dword x) (Z_of_dword y) (Z_of_dword z));
  div_f64 := div64
}.
End IEEE754.

(** ** Reference operations on complex scalars *)

(** The IEEE sign flip of a lane: exclusive or with the sign bit. *)
Definition neg_f32 (x : word) : word := word_xor x (word_of_Z 2147483648).
Definition neg_f64 (x : dword) : dword := D (neg_f32 (hi x)) (lo x).

Section Reference.
Context {K : RealKernel}.

Definition zero_f32 : word := word_of_Z 0.
Definition mzero_f64 : dword := dword_of_Z 9223372036854775808.

(** The complex product and quotient spelled with the kernel's own lane
    operations: [(ar*br - ai*bi) + i (ar*bi + ai*br)], products formed by
    the multiply-add with the zero the packet code passes, and
    [a * conj b] divided by [br*br + bi*bi]. *)
Definition cmul_f (a b : complexf) : complexf :=
  Cf (add_f32 (madd_f32 (re_f a) (re_f b) zero_f32)
              (neg_f32 (madd_f32 (im_f a) (im_f b) zero_f32)))
     (add_f32 (madd_f32 (re_f a) (im_f b) zero_f32)
              (madd_f32 (im_f a) (re_f b) zero_f32)).

Definition cmul_d (a b : complexd) : complexd :=
  Cd (add_f64 (madd_f64 (re_d a) (re_d b) mzero_f64)
              (neg_f64 (madd_f64 (im_d a) (im_d b) mzero_f64)))
     (add_f64 (madd_f64 (re_d a) (im_d b) mzero_f64)
              (madd_f64 (im_d a) (re_d b) mzero_f64)).

Definition conj_f (a : complexf) : complexf := Cf (re_f a) (neg_f32 (im_f a)).
Definition conj_d (a : complexd) : complexd := Cd (re_d a) (neg_f64 (im_d a)).

Definition norm2_f (b : complexf) : word :=
  add_f32 (madd_f32 (re_f b) (re_f b) zero_f32) (madd_f32 (im_f b) (im_f b) zero_f32).

Definition norm2_swapped_f (b : complexf) : word :=
  add_f32 (madd_f32 (im_f b) (im_f b) zero_f32) (madd_f32 (re_f b) (re_f b) zero_f32).

Definition cdiv_f (a b : complexf) : complexf :=
  let p := cmul_f a (conj_f b) in
  Cf (div_f32 (re_f p) (norm2_f b)) (div_f32 (im_f p) (norm2_swapped_f b)).

Definition cadd_f (a b : complexf) : complexf :=
  Cf (add_f32 (re_f a) (re_f b)) (add_f32 (im_f a) (im_f b)).
End Reference.

(** The packet holding the complex values [c0, c1], resp. [c]. *)
Definition Packet2cf_of (c0 c1 : complexf) : Packet2cf :=
  mk_Packet2cf (V (re_f c0) (im_f c0) (re_f c1) (im_f c1)).
Definition Packet1cd_of (c : complexd) : Packet1cd :=
  mk_Packet1cd (V2 (re_d c) (im_d c)).

(** The complex lanes of a packet. *)
Definition lane0 (a : Packet2cf) : complexf := Cf (e0 (v a)) (e1 (v a)).
Definition lane1 (a : Packet2cf) : complexf := Cf (e2 (v a)) (e3 (v a)).
Definition lane (a : Packet1cd) : complexd := Cd (d0 (vd a)) (d1 (vd a)).

(** ** Scalar complex arithmetic and test data *)

Definition option_map2 {A B C} (f : A -> B -> C) (x : option A) (y : option B) : option C :=
  match x, y with
  | Some a, Some b => Some (f a b)
  | _, _ => None
  end.

(** Writing bytes into a memory. *)
Definition poke (m : memory) (p : Z) (bytes : list Z) : memory :=
  fun q =>
    if (p <=? q) && (q <? p + Z.of_nat (length bytes))
    then byte_at bytes (Z.to_nat (q - p))
    else m q.

Definition dword_bytes (x : dword) : list Z := word_bytes (hi x) ++ word_bytes (lo x).
Definition complexf_bytes (c : complexf) : list Z := word_bytes (re_f c) ++ word_bytes (im_f c).
Definition complexd_bytes (c : complexd) : list Z := dword_bytes (re_d c) ++ dword_bytes (im_d c).

Module Scalar.
Import IEEE754.

(** [std::complex] sum, product and quotient as the specification words
    them: [(ar*br - ai*bi) + i (ar*bi + ai*br)] and
    [a * conj b / (br*br + bi*bi)], in IEEE arithmetic. *)
Definition spec_add_f (a b : complexf) : complexf :=
  Cf (add32 (re_f a) (re_f b)) (add32 (im_f a) (im_f b)).

Definition spec_mul_f (a b : complexf) : complexf :=
  Cf (sub32 (mul32 (re_f a) (re_f b)) (mul32 (im_f a) (im_f b)))
     (add32 (mul32 (re_f a) (im_f b)) (mul32 (im_f a) (re_f b))).

Definition spec_mul_d (a b : complexd) : complexd :=
  Cd (sub64 (mul64 (re_d a) (re_d b)) (mul64 (im_d a) (im_d b)))
     (add64 (mul64 (re_d a) (im_d b)) (mul64 (im_d a) (re_d b))).

Definition spec_conj_f (a : complexf) : complexf := Cf (re_f a) (neg_f32 (im_f a)).

Definition spec_div_f (a b : complexf) : complexf :=
  let p := spec_mul_f a (spec_conj_f b) in
  let s := add32 (mul32 (re_f b) (re_f b)) (mul32 (im_f b) (im_f b)) in
  Cf (div32 (re_f p) s) (div32 (im_f p) s).

Definition spec_conj_d (a : complexd) : complexd := Cd (re_d a) (neg_f64 (im_d a)).

Definition spec_div_d (a b : complexd) : complexd :=
  let p := spec_mul_d a (spec_conj_d b) in
  let s := add64 (mul64 (re_d b) (re_d b)) (mul64 (im_d b) (im_d b)) in
  Cd (div64 (re_d p) s) (div64 (im_d p) s).

(** Complex numbers with small integer parts, [re + i im]. *)
Definition cf (re im : Z) : complexf := Cf (float re 0) (float im 0).
Definition cd (re im : Z) : complexd := Cd (double re 0) (double im 0).

(** A memory holding the complex double [a] at the (aligned) address 4096
    and [b] at 4112. *)
Definition memory_with (a b : complexd) : memory :=
  poke (poke (fun _ => 0) 4096 (complexd_bytes a)) 4112 (complexd_bytes b).

(** The same for complex floats: [a] at 4096 and [b] at 4104. *)
Definition memory_with_f (a b : complexf) : memory :=
  poke (poke (fun _ => 0) 4096 (complexf_bytes a)) 4104 (complexf_bytes b).

(** An array of complex doubles holding [x0] at index 0 and [x1]
    elsewhere. *)
Definition array_of (x0 x1 : complexd) : array complexd :=
  fun i => if i =? 0 then x0 else x1.
End Scalar.

(** Two lanes hold the same number when their bit patterns decode to the
    same value, the two zeros counting as one number. *)
Definition is_zero (x : spec_float) : bool :=
  match x with
  | S754_zero _ => true
  | _ => false
  end.

Definition sf_same (x y : spec_float) : Prop :=
  x = y \/ (is_zero x = true /\ is_zero y = true).

Definition float_value (w : word) : spec_float :=
  IEEE754.decode 32 24 128 (Z_of_word w).

Definition same_number (x y : word) : Prop :=
  sf_same (float_value x) (float_value y).

Definition same_complex (a b : complexf) : Prop :=
  same_number (re_f a) (re_f b) /\ same_number (im_f a) (im_f b).

Definition same_numbers (a b : Packet2cf) : Prop :=
  same_number (e0 (v a)) (e0 (v b)) /\ same_number (e1 (v a)) (e1 (v b)) /\
  same_number (e2 (v a)) (e2 (v b)) /\ same_number (e3 (v a)) (e3 (v b)).

(** [D l h] for [D h l]: what [p16uc_COMPLEX_REV] does to a double lane. *)
Definition swap_words (x : dword) : dword := D (lo x) (hi x).

(** ** The remaining primitives of [Complex.h] *)

(** [vec_and], [vec_or] and [vec_nor]: bitwise on the sixteen bytes. *)
Definition vec_and (a b : v128) : v128 := map2_bytes Z.land a b.
Definition vec_or (a b : v128) : v128 := map2_bytes Z.lor a b.
Definition vec_nor (a b : v128) : v128 :=
  map2_bytes (fun x y => Z.lnot (Z.lor x y) mod 256) a b.

Definition pand_Packet2cf (a b : Packet2cf) : Packet2cf :=
  mk_Packet2cf (vec_and (v a) (v b)).
Definition por_Packet2cf (a b : Packet2cf) : Packet2cf :=
  mk_Packet2cf (vec_or (v a) (v b)).
Definition pxor_Packet2cf (a b : Packet2cf) : Packet2cf :=
  mk_Packet2cf (vec_xor (v a) (v b)).
Definition pandnot_Packet2cf (a b : Packet2cf) : Packet2cf :=
  mk_Packet2cf (vec_and (v a) (vec_nor (v b) (v b))).

Definition pand_Packet1cd (a b : Packet1cd) : Packet1cd :=
  mk_Packet1cd (vec_and (vd a) (vd b)).
Definition por_Packet1cd (a b : Packet1cd) : Packet1cd :=
  mk_Packet1cd (vec_or (vd a) (vd b)).
Definition pxor_Packet1cd (a b : Packet1cd) : Packet1cd :=
  mk_Packet1cd (vec_xor (vd a) (vd b)).
Definition pandnot_Packet1cd (a b : Packet1cd) : Packet1cd :=
  mk_Packet1cd (vec_and (vd a) (vec_nor (vd b) (vd b))).

(** Modelled from the spec: [pstore] and [pstoreu] on real packets live in
    [PacketMath.h].  "store / storeUnaligned: inverse of load with the same
    alignment contract": sixteen bytes written at the address, the aligned
    variant being undefined ([None]) on an address that is not a multiple of
    sixteen. *)
Definition store16 (m : memory) (p : Z) (x : v128) : memory := poke m p (bytes_of x).

Definition pstore_v128 (m : memory) (p : Z) (x : v128) : option memory :=
  if p mod 16 =? 0 then Some (store16 m p x) else None.

Definition pstoreu_v128 (m : memory) (p : Z) (x : v128) : option memory :=
  Some (store16 m p x).

(** [pstore<std::complex<float> >(to, from)] and its siblings. *)
Definition pstore_Packet2cf (m : memory) (to : Z) (from : Packet2cf) : option memory :=
  pstore_v128 m to (v from).
Definition pstoreu_Packet2cf (m : memory) (to : Z) (from : Packet2cf) : option memory :=
  pstoreu_v128 m to (v from).
Definition pstore_Packet1cd (m : memory) (to : Z) (from : Packet1cd) : option memory :=
  pstore_v128 m to (vd from).
Definition pstoreu_Packet1cd (m : memory) (to : Z) (from : Packet1cd) : option memory :=
  pstoreu_v128 m to (vd from).

(** [palign_impl<Offset,Packet>::run(first, second)]: the new [first]. *)
Definition palign_impl_Packet2cf_run (Offset : Z) (first second : Packet2cf) : Packet2cf :=
  if Offset =? 1 then mk_Packet2cf (vec_sld (v first) (v second) 8) else first.

Definition palign_impl_Packet1cd_run (Offset : Z) (first second : Packet1cd) : Packet1cd :=
  first.

Section PairwiseReduction.
Context {K : RealKernel}.

(** [preduxp]; [vecs] is the array of packets the pointer designates. *)
Definition preduxp_Packet2cf (vecs : nat -> Packet2cf) : Packet2cf :=
  let b1 := vec_sld (v (vecs 0%nat)) (v (vecs 1%nat)) 8 in
  let b2 := vec_sld (v (vecs 1%nat)) (v (vecs 0%nat)) 8 in
  let b2 := vec_sld b2 b2 8 in
  let b2 := padd_Packet4f b1 b2 in
  mk_Packet2cf b2.
End PairwiseReduction.

(** A register whose sixteen bytes are bytes. *)
Definition is_byte (b : Z) : Prop := 0 <= b < 256.
Definition wf_v128 (x : v128) : Prop := Forall is_byte (bytes_of x).

(** The all-zero register. *)
Definition v128_zero : v128 := v4 0 0 0 0.

(** * Reduction functors: [TensorFunctors.h] *)

(** [int]: a signed 32-bit integer; an arithmetic result outside its range
    is undefined ([None]). *)
Definition INT_MAX : Z := 2147483647.
Definition INT_MIN : Z := -2147483648.

(** Unary minus of [unsigned int]: the result is taken modulo [2^32]. *)
Definition UINT_MAX : Z := 4294967295.
Definition neg_unsigned (x : Z) : Z := (- x) mod 2 ^ 32.

Definition to_int (z : Z) : option Z :=
  if (INT_MIN <=? z) && (z <=? INT_MAX) then Some z else None.

Section Reducers.
(** The scalar type [T], the packet type and the operations the functors
    call on them. *)
Variables T Packet : Type.
Variables add_T mul_T div_T : T -> T -> T.
(** [static_cast<T>(n)] and the conversion of an [int] operand to [T]. *)
Variable of_int : Z -> T.
Variables padd pmul pdiv : Packet -> Packet -> Packet.
Variable pset1 : T -> Packet.
Variables predux predux_mul : Packet -> T.
(** [packet_traits<Packet>::size]. *)
Variable size : Z.

(** [SumReducer<T>]; an accumulator passed by pointer is returned. *)
Definition SumReducer_reduce (t : T) (accum : T) : T := add_T accum t.
Definition SumReducer_reducePacket (p : Packet) (accum : Packet) : Packet := padd accum p.
Definition SumReducer_initialize : T := of_int 0.
Definition SumReducer_initializePacket : Packet := pset1 (of_int 0).
Definition SumReducer_finalize (accum : T) : T := accum.
Definition SumReducer_finalizePacket (vaccum : Packet) : Packet := vaccum.
Definition SumReducer_finalizeBoth (saccum : T) (vaccum : Packet) : T :=
  add_T saccum (predux vaccum).

(** [MeanReducer<T>]: the two counters are the state of the functor. *)
Record MeanReducer := mk_MeanReducer { scalarCount_ : Z; packetCount_ : Z }.

Definition MeanReducer_new : MeanReducer := mk_MeanReducer 0 0.

Definition MeanReducer_reduce (t : T) (accum : T) (r : MeanReducer)
  : option (T * MeanReducer) :=
  let accum := add_T accum t in
  match to_int (scalarCount_ r + 1) with
  | Some n => Some (accum, mk_MeanReducer n (packetCount_ r))
  | None => None
  end.

Definition MeanReducer_reducePacket (p : Packet) (accum : Packet) (r : MeanReducer)
  : option (Packet * MeanReducer) :=
  let accum := padd accum p in
  match to_int (packetCount_ r + 1) with
  | Some n => Some (accum, mk_MeanReducer (scalarCount_ r) n)
  | None => None
  end.

Definition MeanReducer_initialize : T := of_int 0.
Definition MeanReducer_initializePacket : Packet := pset1 (of_int 0).

Definition MeanReducer_finalize (accum : T) (r : MeanReducer) : T :=
  div_T accum (of_int (scalarCount_ r)).

Definition MeanReducer_finalizePacket (vaccum : Packet) (r : MeanReducer) : Packet :=
  pdiv vaccum (pset1 (of_int (packetCount_ r))).

Definition MeanReducer_finalizeBoth (saccum : T) (vaccum : Packet) (r : MeanReducer)
  : option T :=
  match to_int (packetCount_ r * size) with
  | Some k =>
      match to_int (scalarCount_ r + k) with
      | Some n => Some (div_T (add_T saccum (predux vaccum)) (of_int n))
      | None => None
      end
  | None => None
  end.

(** [ProdReducer<T>]. *)
Definition ProdReducer_reduce (t : T) (accum : T) : T := mul_T accum t.
Definition ProdReducer_reducePacket (p : Packet) (accum : Packet) : Packet := pmul accum p.
Definition ProdReducer_initialize : T := of_int 1.
Definition ProdReducer_initializePacket : Packet := pset1 (of_int 1).
Definition ProdReducer_finalize (accum : T) : T := accum.
Definition ProdReducer_finalizePacket (vaccum : Packet) : Packet := vaccum.
Definition ProdReducer_finalizeBoth (saccum : T) (vaccum : Packet) : T :=
  mul_T saccum (predux_mul vaccum).

(** [MaxReducer<T>] and [MinReducer<T>], scalar part; [gt_T] and [lt_T] are
    [operator>] and [operator<], [max_T] is [numeric_limits<T>::max()]. *)
Variables gt_T lt_T : T -> T -> bool.
Variable neg_T : T -> T.
Variable max_T : T.

Definition MaxReducer_reduce (t : T) (accum : T) : T := if gt_T t accum then t else accum.
Definition MaxReducer_initialize : T := neg_T max_T.
Definition MaxReducer_finalize (accum : T) : T := accum.

Definition MinReducer_reduce (t : T) (accum : T) : T := if lt_T t accum then t else accum.
Definition MinReducer_initialize : T := max_T.
Definition MinReducer_finalize (accum : T) : T := accum.

(** A reduction as its caller runs it: a sequence of calls to [reduce] and
    [reducePacket] on one functor and one pair of accumulators. *)
Inductive reduction := ReduceScalar (t : T) | ReducePacket (p : Packet).

Definition scalars_of (ops : list reduction) : list T :=
  flat_map (fun o => match o with ReduceScalar t => [t] | ReducePacket _ => [] end) ops.

Definition packets_of (ops : list reduction) : list Packet :=
  flat_map (fun o => match o with ReduceScalar _ => [] | ReducePacket p => [p] end) ops.

Fixpoint MeanReducer_run (ops : list reduction) (saccum : T) (vaccum : Packet)
  (r : MeanReducer) : option (T * Packet * MeanReducer) :=
  match ops with
  | [] => Some (saccum, vaccum, r)
  | ReduceScalar t :: ops' =>
      match MeanReducer_reduce t saccum r with
      | Some (saccum', r') => MeanReducer_run ops' saccum' vaccum r'
      | None => None
      end
  | ReducePacket p :: ops' =>
      match MeanReducer_reducePacket p vaccum r with
      | Some (vaccum', r') => MeanReducer_run ops' saccum vaccum' r'
      | None => None
      end
  end.
End Reducers.

Arguments ReduceScalar {T Packet} t.
Arguments ReducePacket {T Packet} p.

(** * Axis aligned boxes: [Geometry/AlignedBox.h] *)

(** Modelled from the spec: the vector type [Matrix<Scalar,Dim,1>] and its
    coefficient-wise operations ([cwiseMin], [cwiseMax], [setConstant],
    [array() <= array()], [all()], [any()]) come from the dense matrix
    classes, which are not among the sources.  A vector is its coefficients
    and the scalar type is an integer type, compared as integers; sums,
    differences and products are the exact ones. *)
Definition VectorType := nat -> Z.

Record AlignedBox := mk_AlignedBox { m_min : VectorType; m_max : VectorType }.

Section Boxes.
(** [m_min.size()], the compile-time dimension ([None] for [Dynamic]) and
    [std::numeric_limits<Scalar>::max()]. *)
Variable size_ : nat.
Variable AmbientDimAtCompileTime : option Z.
Variable Scalar_max : Z.

Definition array_all (f : nat -> bool) : bool := forallb f (seq 0 size_).
Definition array_any (f : nat -> bool) : bool := existsb f (seq 0 size_).
Definition cwiseMin (a b : VectorType) : VectorType := fun k => Z.min (a k) (b k).
Definition cwiseMax (a b : VectorType) : VectorType := fun k => Z.max (a k) (b k).
Definition setConstant (c : Z) : VectorType := fun _ => c.

Definition box_dim (b : AlignedBox) : Z :=
  match AmbientDimAtCompileTime with
  | None => Z.of_nat size_ - 1
  | Some d => d
  end.

Definition isNull (b : AlignedBox) : bool :=
  array_any (fun k => m_min b k >? m_max b k).

Definition setNull : AlignedBox :=
  mk_AlignedBox (setConstant Scalar_max) (setConstant (- Scalar_max)).

Definition AlignedBox_of_point (p : VectorType) : AlignedBox := mk_AlignedBox p p.

Definition contains (b : AlignedBox) (p : VectorType) : bool :=
  array_all (fun k => m_min b k <=? p k) && array_all (fun k => p k <=? m_max b k).


Definition extend (b : AlignedBox) (p : VectorType) : AlignedBox :=
  mk_AlignedBox (cwiseMin (m_min b) p) (cwiseMax (m_max b) p).





(** [squaredExteriorDistance]: the loop over [k < dim()].  The scalar
    subtraction, product and sum are those of the scalar type. *)
Variable Scalar_sub Scalar_mul Scalar_add : Z -> Z -> Z.

Definition exterior_step (b : AlignedBox) (p : VectorType) (dist2 : Z) (k : nat) : Z :=
  let aux := Scalar_sub (p k) (m_min b k) in
  if aux <? 0 then Scalar_add dist2 (Scalar_mul aux aux)
  else
    let aux := Scalar_sub (m_max b k) (p k) in
    if aux <? 0 then Scalar_add dist2 (Scalar_mul aux aux) else dist2.

Definition squaredExteriorDistance (b : AlignedBox) (p : VectorType) : Z :=
  fold_left (exterior_step b p) (seq 0 (Z.to_nat (box_dim b))) 0.

Definition exterior_step_box (a b : AlignedBox) (dist2 : Z) (k : nat) : Z :=
  let aux := Scalar_sub (m_min b k) (m_max a k) in
  if aux >? 0 then Scalar_add dist2 (Scalar_mul aux aux)
  else
    let aux := Scalar_sub (m_min a k) (m_max b k) in
    if aux >? 0 then Scalar_add dist2 (Scalar_mul aux aux) else dist2.

Definition squaredExteriorDistance_box (a b : AlignedBox) : Z :=
  fold_left (exterior_step_box a b) (seq 0 (Z.to_nat (box_dim a))) 0.
End Boxes.

(** A vector with one coefficient replaced. *)
Definition set_coeff (p : VectorType) (i : nat) (x : Z) : VectorType :=
  fun k => if Nat.eqb k i then x else p k.

(** * Tensor storage: the pure dynamic class of [Tensor/TensorStorage.h] *)

Record TensorStorage := mk_TensorStorage { m_data : Z; m_dimensions : list Z }.

Section Storage.
Variable T : Type.
(** The value read from an element that was allocated and never written. *)
Variable indeterminate : T.

(** Modelled from the spec: [conditional_aligned_new_auto],
    [conditional_aligned_delete_auto], [smart_copy] and [array_prod] come from
    [Core/util/Memory.h] and the tensor meta headers, which are not among the
    sources.  The heap is the table of the live blocks, by address, with the
    next address to hand out; address [0] is the null pointer.  Allocation
    returns a block of [size] elements at an address that was never used,
    deallocation of the null pointer does nothing, and the product of an
    empty list of dimensions is [1]. *)
Record heap := mk_heap { live : Z -> option (list T); next_block : Z }.

Definition array_prod (dims : list Z) : Z := fold_right Z.mul 1 dims.

Definition block (h : heap) (ptr : Z) : list T :=
  match live h ptr with
  | Some l => l
  | None => []
  end.

Definition conditional_aligned_new_auto (h : heap) (size : Z) : Z * heap :=
  (next_block h,
   mk_heap (fun q => if q =? next_block h
                     then Some (repeat indeterminate (Z.to_nat size))
                     else live h q)
           (next_block h + 1)).

Definition conditional_aligned_delete_auto (h : heap) (ptr size : Z) : heap :=
  if ptr =? 0 then h
  else mk_heap (fun q => if q =? ptr then None else live h q) (next_block h).

(** [smart_copy(start, start + n, target)]. *)
Definition smart_copy (h : heap) (start n target : Z) : heap :=
  mk_heap (fun q => if q =? target
                    then option_map
                           (fun dst => firstn (Z.to_nat n) (block h start)
                                       ++ skipn (Z.to_nat n) dst)
                           (live h q)
                    else live h q)
          (next_block h).

(** The constructors: without dimensions (every dimension is [0], as the
    constructor taking [constructor_without_unaligned_array_assert] spells
    out), from a size and dimensions, and by copy. *)
Definition TensorStorage_default (NumIndices_ : nat) : TensorStorage :=
  mk_TensorStorage 0 (repeat 0 NumIndices_).

Definition TensorStorage_sized (h : heap) (size : Z) (dimensions : list Z)
  : TensorStorage * heap :=
  let '(p, h') := conditional_aligned_new_auto h size in
  (mk_TensorStorage p dimensions, h').

Definition TensorStorage_copy (h : heap) (other : TensorStorage) : TensorStorage * heap :=
  let n := array_prod (m_dimensions other) in
  let '(p, h') := conditional_aligned_new_auto h n in
  (mk_TensorStorage p (m_dimensions other), smart_copy h' (m_data other) n p).

Definition TensorStorage_destroy (h : heap) (s : TensorStorage) : heap :=
  conditional_aligned_delete_auto h (m_data s) (array_prod (m_dimensions s)).

Definition TensorStorage_swap (a b : TensorStorage) : TensorStorage * TensorStorage :=
  (mk_TensorStorage (m_data b) (m_dimensions b),
   mk_TensorStorage (m_data a) (m_dimensions a)).

Definition TensorStorage_size (s : TensorStorage) : Z := array_prod (m_dimensions s).

Definition TensorStorage_resize (h : heap) (s : TensorStorage) (size : Z)
  (nbDimensions : list Z) : TensorStorage * heap :=
  let currentSz := array_prod (m_dimensions s) in
  if negb (size =? currentSz) then
    let h1 := conditional_aligned_delete_auto h (m_data s) currentSz in
    if negb (size =? 0) then
      let '(p, h2) := conditional_aligned_new_auto h1 size in
      (mk_TensorStorage p nbDimensions, h2)
    else (mk_TensorStorage 0 nbDimensions, h1)
  else (mk_TensorStorage (m_data s) nbDimensions, h).

(** [operator=] needs the identity of the two objects: the storages live in a
    table of objects, and the temporary copy is destroyed at the end of the
    block, after the swap. *)
Record objects := mk_objects { object : nat -> TensorStorage; object_heap : heap }.

Definition TensorStorage_assign (s : objects) (this other : nat) : objects :=
  if negb (Nat.eqb this other) then
    let '(tmp, h1) := TensorStorage_copy (object_heap s) (object s other) in
    let '(this', tmp') := TensorStorage_swap (object s this) tmp in
    mk_objects (fun o => if Nat.eqb o this then this' else object s o)
               (TensorStorage_destroy h1 tmp')
  else s.

(** A heap never hands out the null pointer and holds no block at an address
    it has not handed out yet. *)
Definition heap_wf (h : heap) : Prop :=
  0 < next_block h /\ forall q, next_block h <= q -> live h q = None.
End Storage.

(** * Properties *)

(** ** The constants *)

(** Every constant evaluates to the value its comment in the source gives. *)
Lemma constants_as_documented :
  p4ui_CONJ_XOR BigEndian = v4 0 2147483648 0 2147483648 /\
  p4ui_CONJ_XOR LittleEndian = v4 2147483648 0 2147483648 0 /\
  p2ul_CONJ_XOR = v2 9223372036854775808 0 /\
  bytes_of p16uc_COMPLEX_RE = [0; 1; 2; 3; 0; 1; 2; 3; 8; 9; 10; 11; 8; 9; 10; 11] /\
  bytes_of p16uc_COMPLEX_IM = [4; 5; 6; 7; 4; 5; 6; 7; 12; 13; 14; 15; 12; 13; 14; 15] /\
  bytes_of p16uc_COMPLEX_REV = [4; 5; 6; 7; 0; 1; 2; 3; 12; 13; 14; 15; 8; 9; 10; 11] /\
  bytes_of p16uc_COMPLEX_REV2 = [8; 9; 10; 11; 12; 13; 14; 15; 0; 1; 2; 3; 4; 5; 6; 7] /\
  bytes_of p16uc_PSET_HI = [0; 1; 2; 3; 4; 5; 6; 7; 0; 1; 2; 3; 4; 5; 6; 7] /\
  bytes_of p16uc_PSET_LO = [8; 9; 10; 11; 12; 13; 14; 15; 8; 9; 10; 11; 12; 13; 14; 15] /\
  bytes_of p16uc_COMPLEX_MASK16 = [0; 0; 0; 0; 0; 0; 0; 0; 16; 16; 16; 16; 16; 16; 16; 16] /\
  bytes_of p16uc_COMPLEX_TRANSPOSE_0 =
    [0; 1; 2; 3; 4; 5; 6; 7; 16; 17; 18; 19; 20; 21; 22; 23] /\
  bytes_of p16uc_COMPLEX_TRANSPOSE_1 =
    [8; 9; 10; 11; 12; 13; 14; 15; 24; 25; 26; 27; 28; 29; 30; 31].
Proof. repeat split; vm_compute; reflexivity. Qed.


(** ** The shuffles *)

Section Shuffles.
Variables a b : v128.

Lemma perm_COMPLEX_RE : vec_perm a a p16uc_COMPLEX_RE = V (e0 a) (e0 a) (e2 a) (e2 a).
Proof. destruct a as [[] [] [] []]; reflexivity. Qed.

Lemma perm_COMPLEX_IM : vec_perm a a p16uc_COMPLEX_IM = V (e1 a) (e1 a) (e3 a) (e3 a).
Proof. destruct a as [[] [] [] []]; reflexivity. Qed.

Lemma perm_COMPLEX_REV : vec_perm a a p16uc_COMPLEX_REV = V (e1 a) (e0 a) (e3 a) (e2 a).
Proof. destruct a as [[] [] [] []]; reflexivity. Qed.

Lemma perm_COMPLEX_REV2 : vec_perm a a p16uc_COMPLEX_REV2 = V (e2 a) (e3 a) (e0 a) (e1 a).
Proof. destruct a as [[] [] [] []]; reflexivity. Qed.

Lemma perm_PSET_HI : vec_perm a a p16uc_PSET_HI = V (e0 a) (e1 a) (e0 a) (e1 a).
Proof. destruct a as [[] [] [] []]; reflexivity. Qed.

Lemma sld_8 : vec_sld a b 8 = V (e2 a) (e3 a) (e0 b) (e1 b).
Proof. destruct a as [[] [] [] []], b as [[] [] [] []]; reflexivity. Qed.

Lemma perm_TRANSPOSE_0 :
  vec_perm a b p16uc_COMPLEX_TRANSPOSE_0 = V (e0 a) (e1 a) (e0 b) (e1 b).
Proof. destruct a as [[] [] [] []], b as [[] [] [] []]; reflexivity. Qed.

Lemma perm_TRANSPOSE_1 :
  vec_perm a b p16uc_COMPLEX_TRANSPOSE_1 = V (e2 a) (e3 a) (e2 b) (e3 b).
Proof. destruct a as [[] [] [] []], b as [[] [] [] []]; reflexivity. Qed.
End Shuffles.

(** ** The sign masks *)

Lemma word_xor_0 (x : word) : word_xor x (word_of_Z 0) = x.
Proof.
  destruct x; unfold word_xor, map2_word; cbn.
  now rewrite !Z.lxor_0_r.
Qed.

Lemma neg_f32_involutive (x : word) : neg_f32 (neg_f32 x) = x.
Proof.
  destruct x; unfold neg_f32, word_xor, map2_word; cbn.
  rewrite !Z.lxor_assoc; cbn. now rewrite !Z.lxor_0_r.
Qed.

Lemma xor_CONJ_BigEndian (x : v128) :
  vec_xor x (p4ui_CONJ_XOR BigEndian) = V (e0 x) (neg_f32 (e1 x)) (e2 x) (neg_f32 (e3 x)).
Proof.
  destruct x as [x0 x1 x2 x3]; unfold vec_xor, map2_bytes; cbn [e0 e1 e2 e3].
  change (map2_word Z.lxor) with word_xor.
  change (e0 (p4ui_CONJ_XOR BigEndian)) with (word_of_Z 0).
  change (e2 (p4ui_CONJ_XOR BigEndian)) with (word_of_Z 0).
  now rewrite !word_xor_0.
Qed.

Lemma xor_CONJ_LittleEndian (x : v128) :
  vec_xor x (p4ui_CONJ_XOR LittleEndian) = V (neg_f32 (e0 x)) (e1 x) (neg_f32 (e2 x)) (e3 x).
Proof.
  destruct x as [x0 x1 x2 x3]; unfold vec_xor, map2_bytes; cbn [e0 e1 e2 e3].
  change (map2_word Z.lxor) with word_xor.
  change (e1 (p4ui_CONJ_XOR LittleEndian)) with (word_of_Z 0).
  change (e3 (p4ui_CONJ_XOR LittleEndian)) with (word_of_Z 0).
  now rewrite !word_xor_0.
Qed.

Lemma xor_CONJ_double (x : v128) :
  vec_xor x p2ul_CONJ_XOR = V2 (neg_f64 (d0 x)) (d1 x).
Proof.
  destruct x as [x0 x1 x2 x3]; unfold vec_xor, map2_bytes; cbn [e0 e1 e2 e3].
  change (map2_word Z.lxor) with word_xor.
  change (e1 p2ul_CONJ_XOR) with (word_of_Z 0).
  change (e2 p2ul_CONJ_XOR) with (word_of_Z 0).
  change (e3 p2ul_CONJ_XOR) with (word_of_Z 0).
  now rewrite !word_xor_0.
Qed.

(** ** Loads *)

Lemma load16_words (m : memory) (p : Z) :
  load16 m p = V (word_in m p) (word_in m (p + 4)) (word_in m (p + 8)) (word_in m (p + 12)).
Proof.
  unfold load16, of_bytes, word_at, byte_at, word_in; cbn.
  rewrite Z.add_0_r, <- !Z.add_assoc. reflexivity.
Qed.

Lemma rem16_mod16 (p : Z) : (Z.rem p 16 =? 0) = true -> (p mod 16 =? 0) = true.
Proof.
  rewrite !Z.eqb_eq. intros H.
  apply Z.rem_divide in H; [|lia].
  apply Z.mod_divide; [lia|exact H].
Qed.

(** Whichever read path [pset1] takes, it loads the sixteen bytes at the
    address of the scalar. *)
Lemma pset1_read (m : memory) (from : Z) :
  (if Z.rem from 16 =? 0 then pload_v128 m from else ploadu_v128 m from)
  = Some (load16 m from).
Proof.
  destruct (Z.rem from 16 =? 0) eqn:E; [|reflexivity].
  unfold pload_v128. now rewrite (rem16_mod16 _ E).
Qed.

(** ** What the single-precision primitives compute *)

Section Wide.
Context {K : RealKernel}.

Lemma pset1_Packet2cf_lanes (m : memory) (from : Z) :
  pset1_Packet2cf m from
  = Some (Packet2cf_of (complexf_in m from) (complexf_in m from)).
Proof.
  unfold pset1_Packet2cf. rewrite pset1_read, perm_PSET_HI, load16_words.
  reflexivity.
Qed.

Lemma pconj_Packet2cf_BigEndian (a : Packet2cf) :
  pconj_Packet2cf BigEndian a = Packet2cf_of (conj_f (lane0 a)) (conj_f (lane1 a)).
Proof. unfold pconj_Packet2cf. now rewrite xor_CONJ_BigEndian. Qed.

(** With the big-endian mask, [pmul] is the complex product lane by lane. *)
Lemma pmul_Packet2cf_BigEndian (a b : Packet2cf) :
  pmul_Packet2cf BigEndian a b
  = Packet2cf_of (cmul_f (lane0 a) (lane0 b)) (cmul_f (lane1 a) (lane1 b)).
Proof.
  unfold pmul_Packet2cf.
  rewrite perm_COMPLEX_RE, perm_COMPLEX_IM, xor_CONJ_BigEndian, perm_COMPLEX_REV.
  reflexivity.
Qed.

Lemma pdiv_Packet2cf_BigEndian (a b : Packet2cf) :
  pdiv_Packet2cf BigEndian a b
  = Packet2cf_of (cdiv_f (lane0 a) (lane0 b)) (cdiv_f (lane1 a) (lane1 b)).
Proof.
  unfold pdiv_Packet2cf, conj_helper_Packet2cf_pmul.
  rewrite pmul_Packet2cf_BigEndian, pconj_Packet2cf_BigEndian, perm_COMPLEX_REV.
  reflexivity.
Qed.

Lemma preverse_Packet2cf_lanes (a : Packet2cf) :
  preverse_Packet2cf a = Packet2cf_of (lane1 a) (lane0 a).
Proof. unfold preverse_Packet2cf. now rewrite perm_COMPLEX_REV2. Qed.

Lemma predux_Packet2cf_sum (a : Packet2cf) :
  predux_Packet2cf a = cadd_f (lane0 a) (lane1 a).
Proof. unfold predux_Packet2cf. now rewrite sld_8. Qed.

Lemma predux_mul_Packet2cf_BigEndian (a : Packet2cf) :
  predux_mul_Packet2cf BigEndian a = cmul_f (lane0 a) (lane1 a).
Proof.
  unfold predux_mul_Packet2cf. now rewrite pmul_Packet2cf_BigEndian, sld_8.
Qed.

(** With the little-endian mask the sign flip lands on the other lane of
    each pair: [pconj] negates the real parts and [pmul] forms
    [(ar*br + ai*bi) + i (ar*bi - ai*br)]. *)
Lemma pconj_Packet2cf_LittleEndian (a : Packet2cf) :
  v (pconj_Packet2cf LittleEndian a)
  = V (neg_f32 (e0 (v a))) (e1 (v a)) (neg_f32 (e2 (v a))) (e3 (v a)).
Proof. unfold pconj_Packet2cf. now rewrite xor_CONJ_LittleEndian. Qed.

Lemma pmul_Packet2cf_LittleEndian (a b : Packet2cf) :
  lane0 (pmul_Packet2cf LittleEndian a b)
  = Cf (add_f32 (madd_f32 (e0 (v a)) (e0 (v b)) zero_f32)
                (madd_f32 (e1 (v a)) (e1 (v b)) zero_f32))
       (add_f32 (madd_f32 (e0 (v a)) (e1 (v b)) zero_f32)
                (neg_f32 (madd_f32 (e1 (v a)) (e0 (v b)) zero_f32))).
Proof.
  unfold pmul_Packet2cf.
  rewrite perm_COMPLEX_RE, perm_COMPLEX_IM, xor_CONJ_LittleEndian, perm_COMPLEX_REV.
  reflexivity.
Qed.
End Wide.

(** ** What the double-precision primitives compute *)

Section Narrow.
Context {K : RealKernel}.

(** [p16uc_PSET_HI] repeats the first eight bytes: of a complex double that
    is the real part, twice. *)
Lemma pset1_Packet1cd_lanes (m : memory) (from : Z) :
  pset1_Packet1cd m from
  = Some (Packet1cd_of (Cd (re_d (complexd_in m from)) (re_d (complexd_in m from)))).
Proof.
  unfold pset1_Packet1cd. rewrite pset1_read, perm_PSET_HI, load16_words.
  reflexivity.
Qed.

Lemma pload_Packet1cd_lanes (m : memory) (from : Z) :
  from mod 16 = 0 ->
  pload_Packet1cd m from = Some (Packet1cd_of (complexd_in m from)).
Proof.
  intros H. unfold pload_Packet1cd, pload_v128.
  apply Z.eqb_eq in H. rewrite H, load16_words.
  unfold complexd_in, dword_in, Packet1cd_of, V2; cbn.
  now rewrite <- Z.add_assoc.
Qed.

Lemma pconj_Packet1cd_lanes (a : Packet1cd) :
  pconj_Packet1cd a = Packet1cd_of (Cd (neg_f64 (re_d (lane a))) (im_d (lane a))).
Proof.
  unfold pconj_Packet1cd. rewrite xor_CONJ_double.
  destruct a as [[x0 x1 x2 x3]]; reflexivity.
Qed.

(** Both [a_re] and [a_im] are the real part of [a]: the imaginary part of
    [a] never enters the product. *)
Lemma pmul_Packet1cd_lanes (a b : Packet1cd) :
  let ar := re_d (lane a) in
  let br := re_d (lane b) in
  let bi := im_d (lane b) in
  pmul_Packet1cd a b
  = Packet1cd_of
      (Cd (add_f64 (madd_f64 ar br mzero_f64) (neg_f64 (madd_f64 ar bi mzero_f64)))
          (add_f64 (madd_f64 ar bi mzero_f64) (madd_f64 ar br mzero_f64))).
Proof.
  intros ar br bi. unfold pmul_Packet1cd.
  rewrite perm_PSET_HI, sld_8, xor_CONJ_double.
  reflexivity.
Qed.

Lemma preverse_Packet1cd_lanes (a : Packet1cd) :
  preverse_Packet1cd a = Packet1cd_of (Cd (im_d (lane a)) (re_d (lane a))).
Proof. unfold preverse_Packet1cd. now rewrite perm_COMPLEX_REV2. Qed.

Lemma predux_Packet1cd_lanes (a : Packet1cd) :
  predux_Packet1cd a
  = Cd (add_f64 (re_d (lane a)) (im_d (lane a)))
       (add_f64 (im_d (lane a)) (re_d (lane a))).
Proof. unfold predux_Packet1cd. now rewrite sld_8. Qed.
End Narrow.

Section NarrowReductions.
Context {K : RealKernel}.

Lemma predux_mul_Packet1cd_lanes (a : Packet1cd) :
  let re := re_d (lane a) in
  let im := im_d (lane a) in
  predux_mul_Packet1cd a
  = Cd (add_f64 (madd_f64 re im mzero_f64) (neg_f64 (madd_f64 re re mzero_f64)))
       (add_f64 (madd_f64 re re mzero_f64) (madd_f64 re im mzero_f64)).
Proof.
  intros re im. unfold predux_mul_Packet1cd.
  now rewrite pmul_Packet1cd_lanes, sld_8.
Qed.

(** [p16uc_COMPLEX_REV] exchanges the two words inside each double: the
    divisor is [s + swap_words s] lane by lane, not [br*br + bi*bi]. *)
Lemma pdiv_Packet1cd_lanes (a b : Packet1cd) :
  let p := lane (pmul_Packet1cd a (pconj_Packet1cd b)) in
  let s0 := madd_f64 (re_d (lane b)) (re_d (lane b)) mzero_f64 in
  let s1 := madd_f64 (im_d (lane b)) (im_d (lane b)) mzero_f64 in
  pdiv_Packet1cd a b
  = Packet1cd_of
      (Cd (div_f64 (re_d p) (add_f64 s0 (swap_words s0)))
          (div_f64 (im_d p) (add_f64 s1 (swap_words s1)))).
Proof.
  intros p s0 s1. unfold pdiv_Packet1cd, conj_helper_Packet1cd_pmul.
  now rewrite perm_COMPLEX_REV.
Qed.
End NarrowReductions.

(** ** Gather and scatter *)

Section GatherScatter.
Context {K : RealKernel}.

Lemma pgather_Packet2cf_run af stride (from : array complexf) :
  pgather_Packet2cf af stride from
  = (Packet2cf_of (from (0 * stride)) (from (1 * stride)), from,
     [Load (0 * stride); Load (1 * stride)]).
Proof. reflexivity. Qed.

Lemma pscatter_Packet2cf_run af (p : Packet2cf) stride (to : array complexf) :
  let r := pscatter_Packet2cf af p stride to in
  trace r = [Store (0 * stride); Store (1 * stride)] /\
  forall j, final r j
            = if j =? 1 * stride then lane1 p
              else if j =? 0 * stride then lane0 p else to j.
Proof. split; reflexivity. Qed.

(** Scatter changes the elements of index 0 and [stride] only. *)
Lemma pscatter_Packet2cf_frame af (p : Packet2cf) stride (to : array complexf) j :
  j <> 0 -> j <> stride -> final (pscatter_Packet2cf af p stride to) j = to j.
Proof.
  intros H0 Hs. destruct (pscatter_Packet2cf_run af p stride to) as [_ H].
  rewrite H, Z.mul_0_l, Z.mul_1_l.
  destruct (Z.eqb_spec j stride); [contradiction|].
  destruct (Z.eqb_spec j 0); [contradiction|reflexivity].
Qed.

(** Scatter after gather, same stride: the two source elements arrive at
    the same indices of the destination. *)
Lemma pscatter_pgather_Packet2cf af af' stride (from to : array complexf) :
  let p := result (pgather_Packet2cf af stride from) in
  let to' := final (pscatter_Packet2cf af' p stride to) in
  to' 0 = from 0 /\ to' stride = from stride.
Proof.
  intros p to'. subst to'.
  destruct (pscatter_Packet2cf_run af' p stride to) as [_ H].
  rewrite !H. subst p. rewrite pgather_Packet2cf_run.
  rewrite !Z.mul_0_l, !Z.mul_1_l. unfold result; cbn [fst].
  split.
  - destruct (Z.eqb_spec 0 stride) as [<-|]; reflexivity.
  - now rewrite Z.eqb_refl.
Qed.

(** The double-precision gather reads [from[0]] and [from[stride]] and
    returns a packet made of [from[0]] alone. *)
Lemma pgather_Packet1cd_run af stride (from : array complexd) :
  pgather_Packet1cd af stride from
  = (Packet1cd_of (from (0 * stride)), from,
     [Load (0 * stride); Load (1 * stride)]).
Proof. reflexivity. Qed.

(** The double-precision scatter stores the packet at [to[0]] and the
    second element of its local array, which nothing has written, at
    [to[stride]]. *)
Lemma pscatter_Packet1cd_run af (p : Packet1cd) stride (to : array complexd) :
  let r := pscatter_Packet1cd af p stride to in
  trace r = [Store (0 * stride); Store (1 * stride)] /\
  forall j, final r j
            = if j =? 1 * stride then snd af
              else if j =? 0 * stride then lane p else to j.
Proof. split; reflexivity. Qed.
End GatherScatter.

(** ** Broadcast, multiply, divide and reduce on single-precision packets *)

Section WideClaims.
Context {K : RealKernel}.

(** The result of [pset1] depends on the eight bytes of the scalar only:
    neither on the bytes that follow it nor on the alignment of its
    address. *)
Lemma pset1_Packet2cf_alignment (m1 m2 : memory) (p1 p2 : Z) :
  complexf_in m1 p1 = complexf_in m2 p2 ->
  pset1_Packet2cf m1 p1 = pset1_Packet2cf m2 p2.
Proof. intros H. now rewrite !pset1_Packet2cf_lanes, H. Qed.

Lemma pset1_Packet1cd_alignment (m1 m2 : memory) (p1 p2 : Z) :
  complexd_in m1 p1 = complexd_in m2 p2 ->
  pset1_Packet1cd m1 p1 = pset1_Packet1cd m2 p2.
Proof. intros H. now rewrite !pset1_Packet1cd_lanes, H. Qed.

(** On the single-precision packet, big-endian build, the first lane of
    the product (quotient) of two broadcasts is the product (quotient) of
    the scalars in the lane arithmetic of the kernel. *)
Lemma pmul_of_pset1_Packet2cf (m : memory) (pa pb : Z) :
  option_map pfirst_Packet2cf
    (option_map2 (pmul_Packet2cf BigEndian) (pset1_Packet2cf m pa) (pset1_Packet2cf m pb))
  = Some (cmul_f (complexf_in m pa) (complexf_in m pb)).
Proof.
  rewrite !pset1_Packet2cf_lanes. cbn [option_map2 option_map].
  now rewrite pmul_Packet2cf_BigEndian.
Qed.

Lemma pdiv_of_pset1_Packet2cf (m : memory) (pa pb : Z) :
  option_map pfirst_Packet2cf
    (option_map2 (pdiv_Packet2cf BigEndian) (pset1_Packet2cf m pa) (pset1_Packet2cf m pb))
  = Some (cdiv_f (complexf_in m pa) (complexf_in m pb)).
Proof.
  rewrite !pset1_Packet2cf_lanes. cbn [option_map2 option_map].
  now rewrite pdiv_Packet2cf_BigEndian.
Qed.

Lemma predux_Packet2cf_of (a b : complexf) :
  predux_Packet2cf (Packet2cf_of a b) = cadd_f a b.
Proof. now rewrite predux_Packet2cf_sum. Qed.

Lemma predux_mul_Packet2cf_of (a b : complexf) :
  predux_mul_Packet2cf BigEndian (Packet2cf_of a b) = cmul_f a b.
Proof. now rewrite predux_mul_Packet2cf_BigEndian. Qed.

Lemma preverse_Packet2cf_of (c0 c1 : complexf) :
  preverse_Packet2cf (Packet2cf_of c0 c1) = Packet2cf_of c1 c0.
Proof. now rewrite preverse_Packet2cf_lanes. Qed.
End WideClaims.

(** ** Sign symmetry of the IEEE operations *)

Section SignSymmetry.
Variables prec emax : Z.

Lemma SFopp_involutive (x : spec_float) : SFopp (SFopp x) = x.
Proof. destruct x; cbn; now rewrite ?negb_involutive. Qed.

Lemma binary_round_aux_opp s m e l :
  binary_round_aux prec emax (negb s) m e l
  = SFopp (binary_round_aux prec emax s m e l).
Proof.
  unfold binary_round_aux.
  destruct (shr_fexp prec emax m e l) as [mrs' e'].
  destruct (shr_fexp prec emax _ e' loc_Exact) as [mrs'' e''].
  destruct (shr_m mrs''); try reflexivity.
  destruct (e'' <=? emax - prec); reflexivity.
Qed.

Lemma binary_round_opp s m e :
  binary_round prec emax (negb s) m e = SFopp (binary_round prec emax s m e).
Proof.
  unfold binary_round. destruct (shl_align m e _) as [mz ez].
  apply binary_round_aux_opp.
Qed.

Lemma SFmul_opp_r x y : SFmul prec emax x (SFopp y) = SFopp (SFmul prec emax x y).
Proof.
  destruct x, y; cbn; rewrite <- ?negb_xorb_r; try reflexivity.
  apply binary_round_aux_opp.
Qed.

Lemma SFmul_opp_l x y : SFmul prec emax (SFopp x) y = SFopp (SFmul prec emax x y).
Proof.
  destruct x, y; cbn; rewrite <- ?negb_xorb_l; try reflexivity.
  apply binary_round_aux_opp.
Qed.

Lemma sf_same_refl x : sf_same x x.
Proof. now left. Qed.

Lemma sf_same_sym x y : sf_same x y -> sf_same y x.
Proof. intros [->|[? ?]]; [now left|now right]. Qed.

Lemma cond_Zopp_negb s m : cond_Zopp (negb s) m = - cond_Zopp s m.
Proof. destruct s; cbn; lia. Qed.

Lemma binary_normalize_opp m e :
  sf_same (binary_normalize prec emax (- m) e false)
          (SFopp (binary_normalize prec emax m e false)).
Proof.
  destruct m; cbn.
  - right; split; reflexivity.
  - left. apply (binary_round_opp false).
  - left. rewrite <- (binary_round_opp true). reflexivity.
Qed.

(** Negating both operands of a sum negates the sum, up to the sign of a
    zero. *)
Lemma SFadd_opp_opp x y :
  sf_same (SFadd prec emax (SFopp x) (SFopp y)) (SFopp (SFadd prec emax x y)).
Proof.
  destruct x as [[]|[]| |sx mx ex], y as [[]|[]| |sy my ey];
    try (now left); try (right; split; reflexivity).
  cbn. rewrite !cond_Zopp_negb, <- Z.opp_add_distr.
  apply binary_normalize_opp.
Qed.

Lemma SFadd_same x' x y' y :
  sf_same x' (SFopp x) -> sf_same y' (SFopp y) ->
  sf_same (SFadd prec emax x' y') (SFopp (SFadd prec emax x y)).
Proof.
  intros [->|[Hx' Hx]] [->|[Hy' Hy]].
  - apply SFadd_opp_opp.
  - destruct y' as [[]| | |]; try discriminate;
      destruct y as [[]| | |]; try discriminate;
      destruct x as [[]|[]| |sx mx ex];
      try (now left); right; split; reflexivity.
  - destruct x' as [[]| | |]; try discriminate;
      destruct x as [[]| | |]; try discriminate;
      destruct y as [[]|[]| |sy my ey];
      try (now left); right; split; reflexivity.
  - destruct x' as [[]| | |]; try discriminate;
      destruct x as [[]| | |]; try discriminate;
      destruct y' as [[]| | |]; try discriminate;
      destruct y as [[]| | |]; try discriminate;
      try (now left); right; split; reflexivity.
Qed.
End SignSymmetry.

Section FusedSymmetry.
Variables prec emax : Z.

Abbreviation fma := (IEEE754.SFfma prec emax).

Lemma SFfma_opp_opp x y z : fma (SFopp x) (SFopp y) z = fma x y z.
Proof.
  unfold IEEE754.SFfma.
  destruct x as [[]|[]| |[] mx ex], y as [[]|[]| |[] my ey]; try reflexivity;
    destruct z; reflexivity.
Qed.

(** With the addend [+0], negating one factor negates the result, up to the
    sign of a zero. *)
Lemma SFfma_opp_r x y :
  sf_same (fma x (SFopp y) (S754_zero false)) (SFopp (fma x y (S754_zero false))).
Proof.
  unfold IEEE754.SFfma.
  destruct x as [[]|[]| |sx mx ex], y as [[]|[]| |sy my ey];
    try (now left); try (right; split; reflexivity);
    try (destruct sx; (now left) || (right; split; reflexivity));
    try (destruct sy; (now left) || (right; split; reflexivity)).
  left. cbn. rewrite <- negb_xorb_r. apply binary_round_aux_opp.
Qed.

Lemma SFfma_opp_l x y :
  sf_same (fma (SFopp x) y (S754_zero false)) (SFopp (fma x y (S754_zero false))).
Proof.
  unfold IEEE754.SFfma.
  destruct x as [[]|[]| |sx mx ex], y as [[]|[]| |sy my ey];
    try (now left); try (right; split; reflexivity);
    try (destruct sx; (now left) || (right; split; reflexivity));
    try (destruct sy; (now left) || (right; split; reflexivity)).
  left. cbn. rewrite <- negb_xorb_l. apply binary_round_aux_opp.
Qed.
End FusedSymmetry.

(** ** The sign bit of a single-precision lane *)

Import IEEE754.

Lemma land_128 (a : Z) : Z.testbit a 7 = false -> Z.land a 128 = 0.
Proof.
  intros H. apply Z.bits_inj'. intros n Hn.
  rewrite Z.land_spec, Z.bits_0. change 128 with (2 ^ 7).
  rewrite Z.pow2_bits_eqb by lia.
  destruct (Z.eqb_spec 7 n) as [<-|]; [now rewrite H|apply andb_false_r].
Qed.

Lemma lxor_128 (a : Z) :
  Z.lxor a 128 = if Z.testbit a 7 then a - 128 else a + 128.
Proof.
  destruct (Z.testbit a 7) eqn:E.
  - assert (H : Z.testbit (Z.lxor a 128) 7 = false).
    { rewrite Z.lxor_spec, E. reflexivity. }
    apply land_128, Z.add_nocarry_lxor in H.
    rewrite Z.lxor_assoc, Z.lxor_nilpotent, Z.lxor_0_r in H. lia.
  - symmetry. now apply Z.add_nocarry_lxor, land_128.
Qed.

Lemma testbit_7_byte (t : Z) : 0 <= t < 256 -> Z.testbit t 7 = (128 <=? t).
Proof.
  intros H. rewrite Z.testbit_eqb by lia. change (2 ^ 7) with 128.
  destruct (Z.leb_spec 128 t).
  - replace (t / 128) with 1 by (apply Z.div_unique with (t - 128); lia).
    reflexivity.
  - rewrite Z.div_small by lia. reflexivity.
Qed.

Lemma word_of_Z_flip (n : Z) : word_of_Z (n + 2147483648) = neg_f32 (word_of_Z n).
Proof.
  unfold word_of_Z, neg_f32, word_xor, map2_word; cbn [wb0 wb1 wb2 wb3].
  change (word_of_Z 2147483648) with (W 128 0 0 0); cbn [wb0 wb1 wb2 wb3].
  rewrite !Z.lxor_0_r.
  replace (n + 2147483648) with (n + 128 * 16777216) at 1 by lia.
  replace (n + 2147483648) with (n + 32768 * 65536) at 1 by lia.
  replace (n + 2147483648) with (n + 8388608 * 256) at 1 by lia.
  replace (n + 2147483648) with (n + 8388608 * 256) by lia.
  rewrite !Z.div_add by lia.
  rewrite Z.mod_add by lia.
  replace (n / 65536 + 32768) with (n / 65536 + 128 * 256) by lia.
  replace (n / 256 + 8388608) with (n / 256 + 32768 * 256) by lia.
  rewrite !Z.mod_add by lia.
  f_equal.
  assert (B : 0 <= (n / 16777216) mod 256 < 256) by (apply Z.mod_pos_bound; lia).
  rewrite lxor_128, (testbit_7_byte B), <- Z.add_mod_idemp_l by lia.
  destruct (Z.leb_spec 128 ((n / 16777216) mod 256)).
  - symmetry. apply Z.mod_unique with 1; lia.
  - rewrite Z.mod_small; lia.
Qed.

Lemma word_of_Z_flip' (n : Z) : word_of_Z (n - 2147483648) = neg_f32 (word_of_Z n).
Proof.
  replace n with (n - 2147483648 + 2147483648) at 2 by lia.
  now rewrite word_of_Z_flip, neg_f32_involutive.
Qed.

Lemma decode_flip (n : Z) :
  decode 32 24 128 (n + 2147483648) = SFopp (decode 32 24 128 n).
Proof.
  unfold decode, frac_bits, exp_ones.
  change (2 ^ (32 - 1)) with 2147483648. change (2 ^ (24 - 1)) with 8388608.
  change (2 ^ (32 - 24)) with 256.
  replace ((n + 2147483648) / 2147483648) with (n / 2147483648 + 1)
    by (replace (n + 2147483648) with (n + 1 * 2147483648) by lia;
        now rewrite Z.div_add by lia).
  replace ((n + 2147483648) mod 8388608) with (n mod 8388608)
    by (replace (n + 2147483648) with (n + 256 * 8388608) by lia;
        now rewrite Z.mod_add by lia).
  replace ((n + 2147483648) / 8388608 mod 256) with (n / 8388608 mod 256)
    by (replace (n + 2147483648) with (n + 256 * 8388608) by lia;
        rewrite Z.div_add by lia;
        replace (n / 8388608 + 256) with (n / 8388608 + 1 * 256) by lia;
        now rewrite Z.mod_add by lia).
  assert (S : ((n / 2147483648 + 1) mod 2 =? 1) = negb ((n / 2147483648) mod 2 =? 1)).
  { generalize (n / 2147483648). intros q.
    assert (0 <= q mod 2 < 2) by (apply Z.mod_pos_bound; lia).
    rewrite <- Z.add_mod_idemp_l by lia.
    destruct (Z.eqb_spec (q mod 2) 1) as [->|]; [reflexivity|].
    replace (q mod 2) with 0 by lia. reflexivity. }
  rewrite S.
  destruct (n / 8388608 mod 256 =? 0).
  - destruct (n mod 8388608); reflexivity.
  - destruct (n / 8388608 mod 256 =? 256 - 1).
    + destruct (n mod 8388608 =? 0); reflexivity.
    + destruct (n mod 8388608 + 8388608); reflexivity.
Qed.

Lemma decode_flip' (n : Z) :
  decode 32 24 128 (n - 2147483648) = SFopp (decode 32 24 128 n).
Proof.
  replace n with (n - 2147483648 + 2147483648) at 2 by lia.
  now rewrite decode_flip, SFopp_involutive.
Qed.

(** The exclusive or with the sign bit is the IEEE negation of the lane. *)
Lemma float_value_neg (w : word) : float_value (neg_f32 w) = SFopp (float_value w).
Proof.
  destruct w as [b0 b1 b2 b3].
  unfold float_value, neg_f32, word_xor, map2_word, Z_of_word; cbn [wb0 wb1 wb2 wb3].
  change (word_of_Z 2147483648) with (W 128 0 0 0); cbn [wb0 wb1 wb2 wb3].
  rewrite !Z.lxor_0_r, lxor_128.
  destruct (Z.testbit b0 7).
  - rewrite <- decode_flip'. f_equal. lia.
  - rewrite <- decode_flip. f_equal. lia.
Qed.

Lemma encode_opp (x : spec_float) :
  x <> S754_nan ->
  encode 32 24 128 (SFopp x) = encode 32 24 128 x + 2147483648 \/
  encode 32 24 128 (SFopp x) = encode 32 24 128 x - 2147483648.
Proof.
  intros H. destruct x as [[]|[]| |[] m e]; try contradiction; cbn [SFopp negb];
    unfold encode, sign_bit; change (2 ^ (32 - 1)) with 2147483648;
    try (destruct (Z.pos m <? 2 ^ frac_bits 24)); lia.
Qed.

Abbreviation to_word x := (word_of_Z (encode 32 24 128 x)).

Lemma float_value_opp (x : spec_float) :
  float_value (to_word (SFopp x)) = SFopp (float_value (to_word x)).
Proof.
  destruct x as [s|s| |s m e]; try reflexivity;
    rewrite <- float_value_neg; f_equal;
    match goal with
    | |- context [SFopp ?x] =>
        destruct (@encode_opp x) as [->| ->]; [discriminate| |]
    end; auto using word_of_Z_flip, word_of_Z_flip'.
Qed.

(** Encoding and decoding carry "negation up to the sign of zero" along. *)
Lemma float_value_same (x' x : spec_float) :
  sf_same x' (SFopp x) ->
  sf_same (float_value (to_word x')) (SFopp (float_value (to_word x))).
Proof.
  intros [->|[H' H]].
  - left. apply float_value_opp.
  - destruct x' as [[]| | |]; try discriminate;
      destruct x as [[]| | |]; try discriminate;
      (now left) || (right; split; reflexivity).
Qed.

(** ** The conjugate of a product, single precision, big-endian mask *)

Lemma madd_f32_value (x y z : word) :
  madd_f32 x y z = to_word (SFfma 24 128 (float_value x) (float_value y) (float_value z)).
Proof. reflexivity. Qed.

Lemma add_f32_value (x y : word) :
  add_f32 x y = to_word (SFadd 24 128 (float_value x) (float_value y)).
Proof. reflexivity. Qed.

Lemma float_value_zero : float_value zero_f32 = S754_zero false.
Proof. reflexivity. Qed.

(** For complex scalars: the real parts of [conj (a*b)] and of
    [conj a * conj b] have the same bits, the imaginary parts are the same
    number. *)
Lemma conj_cmul_f (a b : complexf) :
  re_f (conj_f (cmul_f a b)) = re_f (cmul_f (conj_f a) (conj_f b)) /\
  same_number (im_f (conj_f (cmul_f a b))) (im_f (cmul_f (conj_f a) (conj_f b))).
Proof.
  unfold cmul_f, conj_f; cbn [re_f im_f]. split.
  - rewrite (madd_f32_value (neg_f32 _) (neg_f32 _)), !float_value_neg, SFfma_opp_opp.
    reflexivity.
  - unfold same_number. apply sf_same_sym.
    rewrite float_value_neg, !add_f32_value.
    apply float_value_same, SFadd_same.
    + rewrite !madd_f32_value, float_value_neg, float_value_zero.
      apply float_value_same, SFfma_opp_r.
    + rewrite !madd_f32_value, float_value_neg, float_value_zero.
      apply float_value_same, SFfma_opp_l.
Qed.

(** On the wide packet with the big-endian mask and IEEE lanes,
    [pconj (pmul a b)] and [pmul (pconj a) (pconj b)] hold the same numbers
    lane by lane (a zero lane may differ in its sign). *)
Lemma pconj_pmul_Packet2cf_same (a b : Packet2cf) :
  same_numbers
    (conj_helper_Packet2cf_pmul BigEndian true true a b)
    (pmul_Packet2cf BigEndian (pconj_Packet2cf BigEndian a) (pconj_Packet2cf BigEndian b)).
Proof.
  unfold conj_helper_Packet2cf_pmul.
  rewrite !pmul_Packet2cf_BigEndian, !pconj_Packet2cf_BigEndian.
  destruct (conj_cmul_f (lane0 a) (lane0 b)) as [R0 I0].
  destruct (conj_cmul_f (lane1 a) (lane1 b)) as [R1 I1].
  unfold same_numbers, Packet2cf_of; cbn [v e0 e1 e2 e3].
  repeat split; try assumption.
  - left. now f_equal.
  - left. now f_equal.
Qed.

(** The two packets need not have the same bits: for a = b = 0 the
    imaginary lane is [-0] on one side and [+0] on the other. *)
Lemma pconj_pmul_Packet2cf_zero :
  let z := Packet2cf_of (Scalar.cf 0 0) (Scalar.cf 0 0) in
  lane0 (conj_helper_Packet2cf_pmul BigEndian true true z z)
  = Cf (float 0 0) (neg_f32 (float 0 0)) /\
  lane0 (pmul_Packet2cf BigEndian (pconj_Packet2cf BigEndian z) (pconj_Packet2cf BigEndian z))
  = Cf (float 0 0) (float 0 0).
Proof. split; vm_compute; reflexivity. Qed.

(** ** The packet product and quotient against the scalar ones *)

Section Congruence.
Variables prec emax : Z.

Lemma SFsub_add_opp x y : SFsub prec emax x y = SFadd prec emax x (SFopp y).
Proof.
  destruct x as [[]|[]| |sx mx ex], y as [[]|[]| |sy my ey]; try reflexivity.
  cbn. now rewrite cond_Zopp_negb, Z.add_opp_r.
Qed.

Lemma SFadd_comm x y : SFadd prec emax x y = SFadd prec emax y x.
Proof.
  destruct x as [[]|[]| |sx mx ex], y as [[]|[]| |sy my ey]; try reflexivity.
  cbn. now rewrite Z.add_comm, (Z.min_comm ex ey).
Qed.

Lemma SFopp_same x x' : sf_same x x' -> sf_same (SFopp x) (SFopp x').
Proof.
  intros [->|[H H']]; [now left|].
  destruct x, x'; try discriminate. right; split; reflexivity.
Qed.

Lemma SFadd_cong x x' y y' :
  sf_same x x' -> sf_same y y' ->
  sf_same (SFadd prec emax x y) (SFadd prec emax x' y').
Proof.
  intros [->|[Hx Hx']] [->|[Hy Hy']].
  - now left.
  - destruct y as [[]| | |]; try discriminate;
      destruct y' as [[]| | |]; try discriminate;
      destruct x' as [[]|[]| |sx mx ex];
      try (now left); right; split; reflexivity.
  - destruct x as [[]| | |]; try discriminate;
      destruct x' as [[]| | |]; try discriminate;
      destruct y' as [[]|[]| |sy my ey];
      try (now left); right; split; reflexivity.
  - destruct x as [[]| | |]; try discriminate;
      destruct x' as [[]| | |]; try discriminate;
      destruct y as [[]| | |]; try discriminate;
      destruct y' as [[]| | |]; try discriminate;
      try (now left); right; split; reflexivity.
Qed.

Lemma SFdiv_cong_l x x' y :
  sf_same x x' -> sf_same (SFdiv prec emax x y) (SFdiv prec emax x' y).
Proof.
  intros [->|[Hx Hx']]; [now left|].
  destruct x as [[]| | |]; try discriminate;
    destruct x' as [[]| | |]; try discriminate;
    destruct y as [[]|[]| |[] my ey];
    try (now left); right; split; reflexivity.
Qed.

(** A multiply-add with the addend [+0] is the product, up to the sign of a
    zero; for a square it is the product. *)
Lemma SFfma_zero_mul x y :
  sf_same (SFfma prec emax x y (S754_zero false)) (SFmul prec emax x y).
Proof.
  destruct x as [[]|[]| |[] mx ex], y as [[]|[]| |[] my ey];
    try (now left); right; split; reflexivity.
Qed.

Lemma SFfma_square x :
  SFfma prec emax x x (S754_zero false) = SFmul prec emax x x.
Proof. destruct x as [[]|[]| |[] mx ex]; reflexivity. Qed.
End Congruence.

Lemma float_value_cong (x x' : spec_float) :
  sf_same x x' -> sf_same (float_value (to_word x)) (float_value (to_word x')).
Proof.
  intros [->|[H H']]; [now left|].
  destruct x as [[]| | |]; try discriminate;
    destruct x' as [[]| | |]; try discriminate;
    (now left) || (right; split; reflexivity).
Qed.

Lemma mul32_value (x y : word) :
  mul32 x y = to_word (SFmul 24 128 (float_value x) (float_value y)).
Proof. reflexivity. Qed.

Lemma sub32_value (x y : word) :
  sub32 x y = to_word (SFsub 24 128 (float_value x) (float_value y)).
Proof. reflexivity. Qed.

Lemma div32_value (x y : word) :
  div_f32 x y = to_word (SFdiv 24 128 (float_value x) (float_value y)).
Proof. reflexivity. Qed.

Lemma madd_mul_same (x y : word) :
  same_number (madd_f32 x y zero_f32) (mul32 x y).
Proof.
  unfold same_number. rewrite madd_f32_value, mul32_value, float_value_zero.
  apply float_value_cong, SFfma_zero_mul.
Qed.

(** The product of the packet code is the scalar product
    [(ar*br - ai*bi) + i (ar*bi + ai*br)] of IEEE arithmetic, as a number. *)
Lemma cmul_f_product (a b : complexf) :
  same_complex (cmul_f a b) (Scalar.spec_mul_f a b).
Proof.
  unfold same_complex, cmul_f, Scalar.spec_mul_f; cbn [re_f im_f]. split.
  - unfold same_number.
    rewrite add_f32_value, sub32_value, SFsub_add_opp, float_value_neg.
    apply float_value_cong, SFadd_cong; [|apply SFopp_same]; apply madd_mul_same.
  - unfold same_number. change add32 with add_f32.
    rewrite !add_f32_value.
    apply float_value_cong, SFadd_cong; apply madd_mul_same.
Qed.

(** The quotient of the packet code is [a * conj b / (br*br + bi*bi)] of
    IEEE arithmetic, as a number. *)
Lemma cdiv_f_quotient (a b : complexf) :
  same_complex (cdiv_f a b) (Scalar.spec_div_f a b).
Proof.
  destruct (cmul_f_product a (conj_f b)) as [R I].
  assert (S0 : norm2_f b
               = add32 (mul32 (re_f b) (re_f b))
                   (mul32 (im_f b) (im_f b))).
  { unfold norm2_f. change add32 with add_f32.
    now rewrite !madd_f32_value, !mul32_value, float_value_zero, !SFfma_square. }
  assert (S1 : norm2_swapped_f b = norm2_f b).
  { unfold norm2_f, norm2_swapped_f. now rewrite !add_f32_value, SFadd_comm. }
  unfold same_complex, cdiv_f, Scalar.spec_div_f; cbn [re_f im_f].
  rewrite S1, S0. change div32 with div_f32.
  unfold same_number. rewrite !div32_value.
  split; apply float_value_cong, SFdiv_cong_l; assumption.
Qed.

(** On the wide packet, big-endian mask, IEEE lanes: the first lane of the
    product (quotient) of two broadcasts is the scalar product (quotient) as
    a number, and the product reduction of [a, b] is their scalar product. *)
Lemma multiply_of_broadcasts_Packet2cf (m : memory) (pa pb : Z) :
  exists c,
    option_map pfirst_Packet2cf
      (option_map2 (pmul_Packet2cf BigEndian) (pset1_Packet2cf m pa) (pset1_Packet2cf m pb))
    = Some c /\
    same_complex c (Scalar.spec_mul_f (complexf_in m pa) (complexf_in m pb)).
Proof.
  eexists. split; [apply pmul_of_pset1_Packet2cf|apply cmul_f_product].
Qed.

Lemma divide_of_broadcasts_Packet2cf (m : memory) (pa pb : Z) :
  exists c,
    option_map pfirst_Packet2cf
      (option_map2 (pdiv_Packet2cf BigEndian) (pset1_Packet2cf m pa) (pset1_Packet2cf m pb))
    = Some c /\
    same_complex c (Scalar.spec_div_f (complexf_in m pa) (complexf_in m pb)).
Proof.
  eexists. split; [apply pdiv_of_pset1_Packet2cf|apply cdiv_f_quotient].
Qed.

Lemma predux_Packet2cf_scalar (a b : complexf) :
  predux_Packet2cf (Packet2cf_of a b) = Scalar.spec_add_f a b.
Proof. now rewrite predux_Packet2cf_of. Qed.

Lemma predux_mul_Packet2cf_scalar (a b : complexf) :
  same_complex (predux_mul_Packet2cf BigEndian (Packet2cf_of a b))
               (Scalar.spec_mul_f a b).
Proof. rewrite predux_mul_Packet2cf_of. apply cmul_f_product. Qed.

(** ** The single-precision packet on concrete numbers *)

Import IEEE754 Scalar.

(** With the big-endian mask and IEEE arithmetic, on a = 1+2i and b = 3+4i
    (b = 2+0i for the quotient): broadcast, product, quotient, reductions,
    reverse and the conjugate of a product. *)
Lemma Packet2cf_BigEndian_examples :
  let m := memory_with_f (cf 1 2) (cf 3 4) in
  let m' := memory_with_f (cf 1 2) (cf 2 0) in
  let a := Packet2cf_of (cf 1 2) (cf 1 2) in
  let b := Packet2cf_of (cf 3 4) (cf 3 4) in
  pset1_Packet2cf m 4096 = Some a /\
  pset1_Packet2cf m 4104 = Some b /\
  pfirst_Packet2cf (pmul_Packet2cf BigEndian a b) = cf (-5) 10 /\
  spec_mul_f (cf 1 2) (cf 3 4) = cf (-5) 10 /\
  option_map pfirst_Packet2cf
    (option_map2 (pdiv_Packet2cf BigEndian) (pset1_Packet2cf m' 4096) (pset1_Packet2cf m' 4104))
  = Some (Cf (float 1 (-1)) (float 1 0)) /\
  predux_Packet2cf (Packet2cf_of (cf 1 2) (cf 3 4)) = cf 4 6 /\
  predux_mul_Packet2cf BigEndian (Packet2cf_of (cf 1 2) (cf 3 4)) = cf (-5) 10 /\
  preverse_Packet2cf (Packet2cf_of (cf 1 2) (cf 3 4)) = Packet2cf_of (cf 3 4) (cf 1 2) /\
  conj_helper_Packet2cf_pmul BigEndian true true a b
  = pmul_Packet2cf BigEndian (pconj_Packet2cf BigEndian a) (pconj_Packet2cf BigEndian b).
Proof. repeat split; vm_compute; reflexivity. Qed.

(** With the little-endian mask the same product comes out as 11-2i, which
    is conj(a)*b. *)
Lemma Packet2cf_LittleEndian_example :
  let a := Packet2cf_of (cf 1 2) (cf 1 2) in
  let b := Packet2cf_of (cf 3 4) (cf 3 4) in
  pfirst_Packet2cf (pmul_Packet2cf LittleEndian a b) = cf 11 (-2).
Proof. vm_compute; reflexivity. Qed.

(** The same scalar read through the aligned path (address 4096) and
    through the unaligned path (addresses 4100 and 4104) gives the same
    packet, for both packet types. *)
Lemma pset1_aligned_unaligned_example :
  let s := cf 1 2 in
  let d := cd 1 2 in
  pset1_Packet2cf (poke (fun _ => 0) 4096 (complexf_bytes s)) 4096
  = pset1_Packet2cf (poke (fun _ => 255) 4100 (complexf_bytes s)) 4100 /\
  pset1_Packet1cd (poke (fun _ => 0) 4096 (complexd_bytes d)) 4096
  = pset1_Packet1cd (poke (fun _ => 255) 4104 (complexd_bytes d)) 4104.
Proof.
  split.
  - apply pset1_Packet2cf_alignment. vm_compute; reflexivity.
  - apply pset1_Packet1cd_alignment. vm_compute; reflexivity.
Qed.

(** ** The claims *)


(** C1. For a = 1+2i and b = 3+4i held in memory, the first lane of
    multiply applied to broadcast(a) and broadcast(b) on the
    double-precision packet [Packet1cd] is 0+6i, while the complex product
    a*b is -5+10i: the code departs from the claim on the narrow packet
    (on the wide packet see [multiply_of_broadcasts_Packet2cf]). *)
Theorem C1_pmul_of_pset1_Packet1cd :
  let m := memory_with (cd 1 2) (cd 3 4) in
  complexd_in m 4096 = cd 1 2 /\ complexd_in m 4112 = cd 3 4 /\
  option_map pfirst_Packet1cd
    (option_map2 pmul_Packet1cd (pset1_Packet1cd m 4096) (pset1_Packet1cd m 4112))
  = Some (cd 0 6) /\
  spec_mul_d (cd 1 2) (cd 3 4) = cd (-5) 10 /\
  cd 0 6 <> cd (-5) 10.
Proof.
  repeat split; try (vm_compute; reflexivity).
  intros H. vm_compute in H. discriminate H.
Qed.

(** C2. For a = 1+2i and b = 2+0i (squared magnitude 4), the first lane of
    divide applied to broadcast(a) and broadcast(b) on [Packet1cd] is -1+0i,
    while the quotient a/b is 0.5+1i: the code departs from the claim on the
    narrow packet (on the wide packet see [divide_of_broadcasts_Packet2cf]). *)
Theorem C2_pdiv_of_pset1_Packet1cd :
  let m := memory_with (cd 1 2) (cd 2 0) in
  complexd_in m 4096 = cd 1 2 /\ complexd_in m 4112 = cd 2 0 /\
  option_map pfirst_Packet1cd
    (option_map2 pdiv_Packet1cd (pset1_Packet1cd m 4096) (pset1_Packet1cd m 4112))
  = Some (cd (-1) 0) /\
  spec_div_d (cd 1 2) (cd 2 0) = Cd (double 1 (-1)) (double 1 0) /\
  cd (-1) 0 <> Cd (double 1 (-1)) (double 1 0).
Proof.
  repeat split; try (vm_compute; reflexivity).
  intros H. vm_compute in H. discriminate H.
Qed.

(** C3. Broadcasting the complex double s = 1+2i gives the packet (1, 1):
    the single complex lane of the narrow packet is 1+1i, not s.  (The
    packet is the same on the aligned and on the unaligned read path, see
    [pset1_Packet1cd_alignment], and the wide broadcast is as claimed, see
    [pset1_Packet2cf_lanes].) *)
Theorem C3_pset1_Packet1cd_lane :
  let m := memory_with (cd 1 2) (cd 3 4) in
  complexd_in m 4096 = cd 1 2 /\
  pset1_Packet1cd m 4096 = Some (Packet1cd_of (cd 1 1)) /\
  Packet1cd_of (cd 1 1) <> Packet1cd_of (cd 1 2).
Proof.
  repeat split; try (vm_compute; reflexivity).
  intros H. vm_compute in H. discriminate H.
Qed.

(** C4. [predux] of the narrow packet holding 1+2i returns 3+3i (the real
    and the imaginary part added to each other), not the packet's single
    complex value.  (The wide reduction is as claimed, see
    [predux_Packet2cf_scalar].) *)
Theorem C4_predux_Packet1cd :
  predux_Packet1cd (Packet1cd_of (cd 1 2)) = cd 3 3 /\ cd 3 3 <> cd 1 2.
Proof.
  split; [vm_compute; reflexivity|].
  intros H. vm_compute in H. discriminate H.
Qed.

(** C5. [predux_mul] of the narrow packet holding 1+2i returns 1+3i, not
    the packet's single complex value.  (The wide reduction is as claimed
    on the big-endian build, see [predux_mul_Packet2cf_scalar].) *)
Theorem C5_predux_mul_Packet1cd :
  predux_mul_Packet1cd (Packet1cd_of (cd 1 2)) = cd 1 3 /\ cd 1 3 <> cd 1 2.
Proof.
  split; [vm_compute; reflexivity|].
  intros H. vm_compute in H. discriminate H.
Qed.

(** C6. [preverse] of the narrow packet holding 1+2i returns the packet
    holding 2+1i: it exchanges the real and the imaginary part instead of
    leaving the packet as it is.  (The wide [preverse] is as claimed, see
    [preverse_Packet2cf_of].) *)
Theorem C6_preverse_Packet1cd :
  preverse_Packet1cd (Packet1cd_of (cd 1 2)) = Packet1cd_of (cd 2 1) /\
  Packet1cd_of (cd 2 1) <> Packet1cd_of (cd 1 2).
Proof.
  split; [vm_compute; reflexivity|].
  intros H. vm_compute in H. discriminate H.
Qed.

(** C7. On the narrow packet, for a = 1+2i and b = 3+4i, the conjugate of
    the product is 1+7i and the product of the conjugates is 7-1i: the two
    packets differ.  (On the wide packet with the big-endian mask the two
    packets hold the same numbers, see [pconj_pmul_Packet2cf_same].) *)
Theorem C7_pconj_pmul_Packet1cd :
  let a := Packet1cd_of (cd 1 2) in
  let b := Packet1cd_of (cd 3 4) in
  conj_helper_Packet1cd_pmul true true a b = Packet1cd_of (cd 1 7) /\
  pmul_Packet1cd (pconj_Packet1cd a) (pconj_Packet1cd b) = Packet1cd_of (cd 7 (-1)) /\
  Packet1cd_of (cd 1 7) <> Packet1cd_of (cd 7 (-1)).
Proof.
  repeat split; try (vm_compute; reflexivity).
  intros H. vm_compute in H. discriminate H.
Qed.

(** C8. [ptranspose] turns the tile of the wide packets {a,b} and {c,d}
    into {a,c} and {b,d}. *)
Theorem C8_ptranspose_Packet2cf (a b c d : complexf) :
  ptranspose_Packet2cf (mk_PacketBlock (Packet2cf_of a b) (Packet2cf_of c d))
  = mk_PacketBlock (Packet2cf_of a c) (Packet2cf_of b d).
Proof.
  unfold ptranspose_Packet2cf; cbn [packet0 packet1].
  now rewrite perm_TRANSPOSE_0, perm_TRANSPOSE_1.
Qed.

(** On the wide packet, gather with base pointer [from]
    and element stride [stride] reads exactly [from[0]] and [from[stride]],
    in that order, writes nothing, and returns the packet with [from[0]] in
    lane 0 and [from[stride]] in lane 1; scatter writes lane 0 to [to[0]] and
    then lane 1 to [to[stride]] and leaves every other element as it was; so
    scatter after gather with the same stride leaves [from[0]] and
    [from[stride]] at the indices 0 and [stride] of the destination.  On the
    narrow packet, gather reads [from[0]] and [from[stride]] and returns the
    packet whose single complex lane is [from[0]]. *)
Lemma pgather_pscatter_two_lanes
  (af af' : complexf * complexf) (afd : complexd * complexd) (stride : Z)
  (from to : array complexf) (fromd : array complexd) :
  let g := pgather_Packet2cf af stride from in
  let s := pscatter_Packet2cf af' (result g) stride to in
  let gd := pgather_Packet1cd afd stride fromd in
  (trace g = [Load 0; Load stride] /\ final g = from /\
   result g = Packet2cf_of (from 0) (from stride)) /\
  (forall (p : Packet2cf) (t : array complexf),
      let r := pscatter_Packet2cf af' p stride t in
      trace r = [Store 0; Store stride] /\
      forall j, final r j
                = if j =? stride then lane1 p else if j =? 0 then lane0 p else t j) /\
  (forall j, final s j
             = if j =? stride then from stride else if j =? 0 then from 0 else to j) /\
  (trace gd = [Load 0; Load stride] /\ final gd = fromd /\
   result gd = Packet1cd_of (fromd 0)).
Proof.
  intros g s gd. subst s g gd.
  rewrite pgather_Packet2cf_run, pgather_Packet1cd_run.
  unfold trace, final, result; cbn [fst snd].
  rewrite !Z.mul_0_l, !Z.mul_1_l.
  repeat split.
  - destruct (pscatter_Packet2cf_run af' p stride t) as [H _].
    now rewrite Z.mul_0_l, Z.mul_1_l in H.
  - intros j. destruct (pscatter_Packet2cf_run af' p stride t) as [_ H].
    specialize (H j). now rewrite Z.mul_0_l, Z.mul_1_l in H.
  - intros j.
    destruct (pscatter_Packet2cf_run af' (Packet2cf_of (from 0) (from stride)) stride to)
      as [_ H].
    specialize (H j). now rewrite Z.mul_0_l, Z.mul_1_l in H.
Qed.

(** C9. On the double-precision packet [Packet1cd], which holds one
    complex element, gather with stride 1 from the array [1+2i, 3+4i] reads
    [from[1]] besides [from[0]], although only [from[0]] reaches the packet
    (the array [1+2i, 5+6i] gives the same packet), and scatter of that
    packet with stride 1 into the array [7+8i, 9+10i] writes [to[1]] besides
    [to[0]] and leaves 0+0i there, the second element of its local array,
    which is zero-constructed and never written.  The code touches an
    element beyond index stride*(count-1) = 0, changes an element of the
    destination that holds no lane, and scatter after gather does not
    reproduce [from[1]] (on the wide packet see
    [pgather_pscatter_two_lanes]). *)
Theorem C9_pgather_pscatter_Packet1cd :
  let from := array_of (cd 1 2) (cd 3 4) in
  let to := array_of (cd 7 8) (cd 9 10) in
  let af := (cd 0 0, cd 0 0) in
  let g := pgather_Packet1cd af 1 from in
  let g' := pgather_Packet1cd af 1 (array_of (cd 1 2) (cd 5 6)) in
  let s := pscatter_Packet1cd af (result g) 1 to in
  trace g = [Load 0; Load 1] /\
  result g = Packet1cd_of (cd 1 2) /\
  result g' = result g /\
  trace s = [Store 0; Store 1] /\
  final s 0 = cd 1 2 /\
  final s 1 = cd 0 0 /\
  final s 1 <> to 1 /\
  final s 1 <> from 1.
Proof.
  repeat split; try (intros H; vm_compute in H; discriminate H).
Qed.

(** C10. [ptranspose] applied twice gives back both packets of the block,
    byte for byte, for the wide and for the narrow packet. *)
Theorem C10_ptranspose_involutive :
  (forall k : PacketBlock Packet2cf,
      ptranspose_Packet2cf (ptranspose_Packet2cf k) = k) /\
  (forall k : PacketBlock Packet1cd,
      ptranspose_Packet1cd (ptranspose_Packet1cd k) = k).
Proof.
  split; intros k.
  - unfold ptranspose_Packet2cf; cbn [packet0 packet1 v].
    now rewrite !perm_TRANSPOSE_0, !perm_TRANSPOSE_1.
  - unfold ptranspose_Packet1cd; cbn [packet0 packet1 vd].
    now rewrite !perm_TRANSPOSE_0, !perm_TRANSPOSE_1.
Qed.

(** * Further properties of the packet primitives *)

(** ** Conjugate, flip and reverse *)

Section Involutions.
Context {K : RealKernel}.

Lemma word_xor_twice (x m : word) : word_xor (word_xor x m) m = x.
Proof.
  destruct x, m; unfold word_xor, map2_word; cbn [wb0 wb1 wb2 wb3].
  now rewrite !Z.lxor_assoc, !Z.lxor_nilpotent, !Z.lxor_0_r.
Qed.

Lemma vec_xor_twice (x m : v128) : vec_xor (vec_xor x m) m = x.
Proof.
  destruct x, m; unfold vec_xor, map2_bytes; cbn [e0 e1 e2 e3].
  change (map2_word Z.lxor) with word_xor. now rewrite !word_xor_twice.
Qed.

(** X1. Conjugating twice gives back the packet, bit for bit: for the wide
    packet under either byte order and for the narrow packet. *)
Theorem pconj_involutive :
  (forall bo (a : Packet2cf), pconj_Packet2cf bo (pconj_Packet2cf bo a) = a) /\
  (forall a : Packet1cd, pconj_Packet1cd (pconj_Packet1cd a) = a).
Proof.
  split; intros; unfold pconj_Packet2cf, pconj_Packet1cd; cbn [v vd];
    now rewrite vec_xor_twice.
Qed.
End Involutions.

Section Lanes.
Context {K : RealKernel}.

(** X2. With the big-endian mask [pconj] leaves the real lanes of a wide
    packet as they are and negates (in the IEEE sense) the imaginary lanes;
    with the little-endian mask it is the real lanes that are negated and
    the imaginary lanes that stay. *)
Theorem pconj_Packet2cf_lanes (a : Packet2cf) :
  let b := v (pconj_Packet2cf BigEndian a) in
  let l := v (pconj_Packet2cf LittleEndian a) in
  (e0 b = e0 (v a) /\ e2 b = e2 (v a) /\
   float_value (e1 b) = SFopp (float_value (e1 (v a))) /\
   float_value (e3 b) = SFopp (float_value (e3 (v a)))) /\
  (e1 l = e1 (v a) /\ e3 l = e3 (v a) /\
   float_value (e0 l) = SFopp (float_value (e0 (v a))) /\
   float_value (e2 l) = SFopp (float_value (e2 (v a)))).
Proof.
  cbv zeta. rewrite pconj_Packet2cf_BigEndian, pconj_Packet2cf_LittleEndian.
  unfold Packet2cf_of, conj_f, lane0, lane1; cbn [v e0 e1 e2 e3 re_f im_f].
  rewrite !float_value_neg. repeat split.
Qed.

(** X3. [pcplxflip] exchanges the real and the imaginary part inside each
    complex lane of a wide packet, keeps the lanes in place, undoes itself
    and commutes with [preverse].  On the narrow packet it permutes bytes
    inside each double only: it exchanges the two 32-bit words of the real
    part and of the imaginary part, never the two parts. *)
Theorem pcplxflip_lanes (c0 c1 : complexf) (x : Packet2cf) (y : Packet1cd) :
  (pcplxflip_Packet2cf (Packet2cf_of c0 c1)
   = Packet2cf_of (Cf (im_f c0) (re_f c0)) (Cf (im_f c1) (re_f c1)) /\
   pcplxflip_Packet2cf (pcplxflip_Packet2cf x) = x /\
   pcplxflip_Packet2cf (preverse_Packet2cf x)
   = preverse_Packet2cf (pcplxflip_Packet2cf x)) /\
  (lane (pcplxflip_Packet1cd y)
   = Cd (swap_words (re_d (lane y))) (swap_words (im_d (lane y))) /\
   pcplxflip_Packet1cd (pcplxflip_Packet1cd y) = y).
Proof.
  split.
  - unfold pcplxflip_Packet2cf, preverse_Packet2cf; cbn [v].
    rewrite !perm_COMPLEX_REV, !perm_COMPLEX_REV2. repeat split.
  - unfold pcplxflip_Packet1cd; cbn [vd].
    rewrite !perm_COMPLEX_REV. split; reflexivity.
Qed.

(** X4. [preverse] applied twice gives back the packet, wide or narrow. *)
Theorem preverse_involutive :
  (forall a : Packet2cf, preverse_Packet2cf (preverse_Packet2cf a) = a) /\
  (forall a : Packet1cd, preverse_Packet1cd (preverse_Packet1cd a) = a).
Proof.
  split; intros a; unfold preverse_Packet2cf, preverse_Packet1cd; cbn [v vd];
    now rewrite !perm_COMPLEX_REV2.
Qed.

(** X5. [palign_impl::run] with offset 1 turns [first] = {a,b} into {b,c},
    where [second] = {c,d}; with any other offset, and always on the narrow
    packet, [first] stays as it is. *)
Theorem palign_impl_run (Offset : Z) (a b c d : complexf) (f s : Packet1cd) :
  palign_impl_Packet2cf_run Offset (Packet2cf_of a b) (Packet2cf_of c d)
  = (if Offset =? 1 then Packet2cf_of b c else Packet2cf_of a b) /\
  palign_impl_Packet1cd_run Offset f s = f.
Proof.
  unfold palign_impl_Packet2cf_run. split; [|reflexivity].
  destruct (Offset =? 1); [|reflexivity].
  cbn [v Packet2cf_of]. now rewrite sld_8.
Qed.

(** X6. On the wide packet, [pfirst] of a broadcast is the scalar that was
    broadcast, whatever the alignment of its address, and so is [pfirst] of
    [ploaddup]; [pfirst] of a packet is its first complex lane. *)
Theorem pfirst_pset1_Packet2cf (m : memory) (from : Z) (c0 c1 : complexf) :
  option_map pfirst_Packet2cf (pset1_Packet2cf m from) = Some (complexf_in m from) /\
  option_map pfirst_Packet2cf (ploaddup_Packet2cf m from) = Some (complexf_in m from) /\
  pfirst_Packet2cf (Packet2cf_of c0 c1) = c0.
Proof.
  unfold ploaddup_Packet2cf. rewrite pset1_Packet2cf_lanes. repeat split.
Qed.

(** X7. [ptranspose] on a block of two narrow packets puts the two real
    parts into [packet[0]] and the two imaginary parts into [packet[1]]. *)
Theorem ptranspose_Packet1cd_parts (a b : complexd) :
  ptranspose_Packet1cd (mk_PacketBlock (Packet1cd_of a) (Packet1cd_of b))
  = mk_PacketBlock (Packet1cd_of (Cd (re_d a) (re_d b)))
                   (Packet1cd_of (Cd (im_d a) (im_d b))).
Proof.
  unfold ptranspose_Packet1cd; cbn [packet0 packet1 vd].
  now rewrite perm_TRANSPOSE_0, perm_TRANSPOSE_1.
Qed.
End Lanes.

(** ** Loads and stores *)

Lemma bytes_of_length (x : v128) : length (bytes_of x) = 16%nat.
Proof. reflexivity. Qed.

Lemma store16_at (m : memory) (p : Z) (x : v128) (i : Z) :
  0 <= i < 16 -> store16 m p x (p + i) = byte_at (bytes_of x) (Z.to_nat i).
Proof.
  intros H. unfold store16, poke. rewrite bytes_of_length.
  replace (p <=? p + i) with true by (symmetry; apply Z.leb_le; lia).
  replace (p + i <? p + Z.of_nat 16) with true by (symmetry; apply Z.ltb_lt; lia).
  cbn [andb]. f_equal. f_equal. lia.
Qed.

Lemma store16_other (m : memory) (p : Z) (x : v128) (q : Z) :
  q < p \/ p + 16 <= q -> store16 m p x q = m q.
Proof.
  intros H. unfold store16, poke. rewrite bytes_of_length.
  destruct (Z.leb_spec p q); [|reflexivity].
  destruct (Z.ltb_spec q (p + Z.of_nat 16)); [lia|reflexivity].
Qed.

Lemma load16_store16 (m : memory) (p : Z) (x : v128) : load16 (store16 m p x) p = x.
Proof.
  unfold load16; cbn [map].
  rewrite !store16_at by lia. reflexivity.
Qed.

Lemma store16_load16 (m : memory) (p q : Z) : store16 m p (load16 m p) q = m q.
Proof.
  destruct (Z.lt_ge_cases q p) as [H|H]; [apply store16_other; lia|].
  destruct (Z.lt_ge_cases q (p + 16)) as [H'|H']; [|apply store16_other; lia].
  replace q with (p + (q - p)) by lia.
  rewrite store16_at by lia.
  assert (C : q - p = 0 \/ q - p = 1 \/ q - p = 2 \/ q - p = 3 \/ q - p = 4 \/
              q - p = 5 \/ q - p = 6 \/ q - p = 7 \/ q - p = 8 \/ q - p = 9 \/
              q - p = 10 \/ q - p = 11 \/ q - p = 12 \/ q - p = 13 \/
              q - p = 14 \/ q - p = 15) by lia.
  repeat (destruct C as [C|C]; [rewrite C; reflexivity|]).
  rewrite C; reflexivity.
Qed.

(** X8. A packet stored with the unaligned store and loaded back with the
    unaligned load from the same address is the packet that was stored, bit
    for bit, at any address, for both packet types; storing back the packet
    just loaded leaves every byte of the memory as it was. *)
Theorem ploadu_pstoreu (m : memory) (p q : Z) :
  (forall x : Packet2cf,
      match pstoreu_Packet2cf m p x with
      | Some m' => ploadu_Packet2cf m' p
      | None => None
      end = Some x) /\
  (forall x : Packet1cd,
      match pstoreu_Packet1cd m p x with
      | Some m' => ploadu_Packet1cd m' p
      | None => None
      end = Some x) /\
  match ploadu_Packet2cf m p with
  | Some x => option_map (fun m' => m' q) (pstoreu_Packet2cf m p x)
  | None => None
  end = Some (m q) /\
  match ploadu_Packet1cd m p with
  | Some x => option_map (fun m' => m' q) (pstoreu_Packet1cd m p x)
  | None => None
  end = Some (m q).
Proof.
  split; [|split].
  - intros x; cbn; now rewrite load16_store16.
  - intros x; cbn; now rewrite load16_store16.
  - split; cbn; now rewrite store16_load16.
Qed.

(** X9. On an address that is a multiple of sixteen the aligned store and
    load are defined, round-trip the packet, and the store changes no byte
    outside the sixteen it writes. *)
Theorem pload_pstore_aligned (m : memory) (p : Z) (x : Packet2cf) (y : Packet1cd) :
  p mod 16 = 0 ->
  exists m1 m2,
    pstore_Packet2cf m p x = Some m1 /\ pload_Packet2cf m1 p = Some x /\
    pstore_Packet1cd m p y = Some m2 /\ pload_Packet1cd m2 p = Some y /\
    forall q, q < p \/ p + 16 <= q -> m1 q = m q /\ m2 q = m q.
Proof.
  intros H. apply Z.eqb_eq in H.
  exists (store16 m p (v x)), (store16 m p (vd y)).
  unfold pstore_Packet2cf, pstore_Packet1cd, pstore_v128,
    pload_Packet2cf, pload_Packet1cd, pload_v128.
  rewrite H, !load16_store16. repeat split; try reflexivity;
    now apply store16_other.
Qed.

Lemma pload_pstore_aligned_witness :
  exists m1 m2,
    pstore_Packet2cf (fun _ => 0) 4096 (Packet2cf_of (cf 1 2) (cf 3 4)) = Some m1 /\
    pload_Packet2cf m1 4096 = Some (Packet2cf_of (cf 1 2) (cf 3 4)) /\
    pstore_Packet1cd (fun _ => 0) 4096 (Packet1cd_of (cd 1 2)) = Some m2 /\
    pload_Packet1cd m2 4096 = Some (Packet1cd_of (cd 1 2)) /\
    forall q, q < 4096 \/ 4096 + 16 <= q -> m1 q = 0 /\ m2 q = 0.
Proof.
  apply (pload_pstore_aligned (fun _ => 0) 4096
           (Packet2cf_of (cf 1 2) (cf 3 4)) (Packet1cd_of (cd 1 2))).
  reflexivity.
Defined.

(** ** Bitwise operations *)

Lemma byte_high_bits (x n : Z) : is_byte x -> 8 <= n -> Z.testbit x n = false.
Proof.
  intros Hx Hn. rewrite <- (Z.mod_small x 256) by exact Hx.
  change 256 with (2 ^ 8). rewrite Z.testbit_mod_pow2 by lia.
  replace (n <? 8) with false by (symmetry; apply Z.ltb_ge; lia). reflexivity.
Qed.

Lemma byte_partition (x m : Z) :
  is_byte x -> Z.lor (Z.land x m) (Z.land x (Z.lnot m mod 256)) = x.
Proof.
  intros Hx. apply Z.bits_inj'. intros n Hn.
  rewrite Z.lor_spec, !Z.land_spec. change 256 with (2 ^ 8).
  rewrite Z.testbit_mod_pow2, Z.lnot_spec by lia.
  destruct (Z.ltb_spec n 8).
  - destruct (Z.testbit x n), (Z.testbit m n); reflexivity.
  - rewrite (byte_high_bits Hx) by lia. reflexivity.
Qed.

Lemma byte_disjoint (x m : Z) : Z.land (Z.land x m) (Z.land x (Z.lnot m mod 256)) = 0.
Proof.
  apply Z.bits_inj'. intros n Hn.
  rewrite !Z.land_spec, Z.bits_0. change 256 with (2 ^ 8).
  rewrite Z.testbit_mod_pow2, Z.lnot_spec by lia.
  destruct (Z.testbit x n), (Z.testbit m n), (n <? 8); reflexivity.
Qed.

Lemma vec_partition (a m : v128) :
  wf_v128 a -> vec_or (vec_and a m) (vec_and a (vec_nor m m)) = a.
Proof.
  destruct a as [[] [] [] []], m as [[] [] [] []].
  intros H. unfold wf_v128, bytes_of, word_bytes in H. cbn in H.
  repeat match goal with
         | H : Forall _ (_ :: _) |- _ => inversion H; subst; clear H
         end.
  unfold vec_or, vec_and, vec_nor, map2_bytes, map2_word;
    cbn [e0 e1 e2 e3 wb0 wb1 wb2 wb3].
  rewrite !Z.lor_diag, !byte_partition by assumption. reflexivity.
Qed.

Lemma vec_disjoint (a m : v128) :
  vec_and (vec_and a m) (vec_and a (vec_nor m m)) = v128_zero.
Proof.
  destruct a as [[] [] [] []], m as [[] [] [] []].
  unfold vec_and, vec_nor, map2_bytes, map2_word;
    cbn [e0 e1 e2 e3 wb0 wb1 wb2 wb3].
  rewrite !Z.lor_diag, !byte_disjoint. reflexivity.
Qed.

Lemma vec_xor_self (a : v128) : vec_xor a a = v128_zero.
Proof.
  destruct a as [[] [] [] []].
  unfold vec_xor, map2_bytes, map2_word; cbn [e0 e1 e2 e3 wb0 wb1 wb2 wb3].
  rewrite !Z.lxor_nilpotent. reflexivity.
Qed.

(** X10. [pxor] with the same packet twice gives back the first operand,
    [pxor] of a packet with itself is the all-zero packet, and [pand] and
    [pandnot] with the same mask never keep a common bit. *)
Theorem pxor_pandnot_laws :
  (forall a b : Packet2cf,
      pxor_Packet2cf (pxor_Packet2cf a b) b = a /\
      pxor_Packet2cf a a = mk_Packet2cf v128_zero /\
      pand_Packet2cf (pand_Packet2cf a b) (pandnot_Packet2cf a b)
      = mk_Packet2cf v128_zero) /\
  (forall a b : Packet1cd,
      pxor_Packet1cd (pxor_Packet1cd a b) b = a /\
      pxor_Packet1cd a a = mk_Packet1cd v128_zero /\
      pand_Packet1cd (pand_Packet1cd a b) (pandnot_Packet1cd a b)
      = mk_Packet1cd v128_zero).
Proof.
  split; intros a b;
    unfold pxor_Packet2cf, pand_Packet2cf, pandnot_Packet2cf,
      pxor_Packet1cd, pand_Packet1cd, pandnot_Packet1cd; cbn [v vd];
    now rewrite vec_xor_twice, vec_xor_self, vec_disjoint.
Qed.

(** X11. For a packet made of bytes, the bits selected by a mask ([pand])
    and the bits outside it ([pandnot]) put together with [por] give back
    the packet. *)
Theorem por_pand_pandnot (a m : Packet2cf) (b n : Packet1cd) :
  wf_v128 (v a) -> wf_v128 (vd b) ->
  por_Packet2cf (pand_Packet2cf a m) (pandnot_Packet2cf a m) = a /\
  por_Packet1cd (pand_Packet1cd b n) (pandnot_Packet1cd b n) = b.
Proof.
  intros Ha Hb.
  unfold por_Packet2cf, pand_Packet2cf, pandnot_Packet2cf,
    por_Packet1cd, pand_Packet1cd, pandnot_Packet1cd; cbn [v vd].
  now rewrite !vec_partition.
Qed.

Lemma por_pand_pandnot_witness :
  por_Packet2cf (pand_Packet2cf (Packet2cf_of (cf 1 2) (cf 3 4))
                   (mk_Packet2cf (p4ui_CONJ_XOR BigEndian)))
    (pandnot_Packet2cf (Packet2cf_of (cf 1 2) (cf 3 4))
       (mk_Packet2cf (p4ui_CONJ_XOR BigEndian)))
  = Packet2cf_of (cf 1 2) (cf 3 4) /\
  por_Packet1cd (pand_Packet1cd (Packet1cd_of (cd 1 2)) (mk_Packet1cd p2ul_CONJ_XOR))
    (pandnot_Packet1cd (Packet1cd_of (cd 1 2)) (mk_Packet1cd p2ul_CONJ_XOR))
  = Packet1cd_of (cd 1 2).
Proof.
  apply (por_pand_pandnot (Packet2cf_of (cf 1 2) (cf 3 4))
           (mk_Packet2cf (p4ui_CONJ_XOR BigEndian))
           (Packet1cd_of (cd 1 2)) (mk_Packet1cd p2ul_CONJ_XOR));
    unfold wf_v128;
    match goal with
    | |- Forall _ ?l => let l' := eval vm_compute in l in change (Forall is_byte l')
    end;
    repeat (apply Forall_cons; [unfold is_byte; lia|]); apply Forall_nil.
Defined.

(** ** Gather and scatter at the edges *)

Section GatherScatterEdges.
Context {K : RealKernel}.

(** X12. With stride 0, gather reads [from[0]] twice and returns it in both
    lanes, and scatter writes [to[0]] twice, so that lane 1 is what stays
    there; no other element changes. *)
Theorem pgather_pscatter_stride_0
  (af af' : complexf * complexf) (p : Packet2cf) (from to : array complexf) :
  let g := pgather_Packet2cf af 0 from in
  let s := pscatter_Packet2cf af' p 0 to in
  trace g = [Load 0; Load 0] /\
  result g = Packet2cf_of (from 0) (from 0) /\
  trace s = [Store 0; Store 0] /\
  forall j, final s j = if j =? 0 then lane1 p else to j.
Proof.
  repeat split. intros j. cbn. now destruct (j =? 0).
Qed.

(** X13. Gather after scatter with the same stride reads back the packet
    that was scattered when the stride is not 0.  With stride 0 the wide
    packet comes back with lane 1 in both lanes, and the narrow packet comes
    back as the second element of the local array of [pscatter], which the
    function stores without having written it. *)
Theorem pgather_pscatter_same_stride
  (af af' : complexf * complexf) (p : Packet2cf) (to : array complexf)
  (ad ad' : complexd * complexd) (pd : Packet1cd) (tod : array complexd)
  (stride : Z) :
  result (pgather_Packet2cf af stride (final (pscatter_Packet2cf af' p stride to)))
  = (if stride =? 0 then Packet2cf_of (lane1 p) (lane1 p) else p) /\
  result (pgather_Packet1cd ad stride (final (pscatter_Packet1cd ad' pd stride tod)))
  = (if stride =? 0 then Packet1cd_of (snd ad') else pd).
Proof.
  split.
  - rewrite pgather_Packet2cf_run. unfold result; cbn [fst].
    destruct (pscatter_Packet2cf_run af' p stride to) as [_ H]. rewrite !H.
    rewrite !Z.mul_0_l, !Z.mul_1_l, !Z.eqb_refl, (Z.eqb_sym 0 stride).
    destruct (stride =? 0); reflexivity.
  - rewrite pgather_Packet1cd_run. unfold result; cbn [fst].
    destruct (pscatter_Packet1cd_run ad' pd stride tod) as [_ H]. rewrite !H.
    rewrite !Z.mul_0_l, !Z.mul_1_l, (Z.eqb_sym 0 stride).
    destruct (stride =? 0); reflexivity.
Qed.
End GatherScatterEdges.

(** ** Conjugation strategies *)

Section ConjHelper.
Context {K : RealKernel}.

(** X14. With the big-endian mask, on each lane: the conjugate-right
    strategy multiplies [a] by the conjugate of [b], the conjugate-left
    strategy multiplies the conjugate of [a] by [b], the conjugate-both
    strategy conjugates the product, and [pmadd] adds [c] to the result. *)
Theorem conj_helper_Packet2cf_lanes (a b c : Packet2cf) :
  conj_helper_Packet2cf_pmul BigEndian false true a b
  = Packet2cf_of (cmul_f (lane0 a) (conj_f (lane0 b)))
                 (cmul_f (lane1 a) (conj_f (lane1 b))) /\
  conj_helper_Packet2cf_pmul BigEndian true false a b
  = Packet2cf_of (cmul_f (conj_f (lane0 a)) (lane0 b))
                 (cmul_f (conj_f (lane1 a)) (lane1 b)) /\
  conj_helper_Packet2cf_pmul BigEndian true true a b
  = Packet2cf_of (conj_f (cmul_f (lane0 a) (lane0 b)))
                 (conj_f (cmul_f (lane1 a) (lane1 b))) /\
  forall l r,
    conj_helper_Packet2cf_pmadd BigEndian l r a b c
    = Packet2cf_of
        (cadd_f (lane0 (conj_helper_Packet2cf_pmul BigEndian l r a b)) (lane0 c))
        (cadd_f (lane1 (conj_helper_Packet2cf_pmul BigEndian l r a b)) (lane1 c)).
Proof.
  repeat split; try reflexivity; unfold conj_helper_Packet2cf_pmul;
    now rewrite !pmul_Packet2cf_BigEndian, !pconj_Packet2cf_BigEndian.
Qed.
End ConjHelper.

(** ** Commutativity in IEEE arithmetic *)

Section Commutativity.
Variables prec emax : Z.

Lemma SFmul_comm x y : SFmul prec emax x y = SFmul prec emax y x.
Proof.
  destruct x as [[]|[]| |sx mx ex], y as [[]|[]| |sy my ey]; try reflexivity;
    cbn; rewrite ?(xorb_comm sx), ?xorb_false_r, ?xorb_true_r,
      ?xorb_false_l, ?xorb_true_l; try reflexivity.
  now rewrite Pos.mul_comm, Z.add_comm.
Qed.

Lemma SFfma_comm x y z : SFfma prec emax x y z = SFfma prec emax y x z.
Proof.
  unfold SFfma.
  destruct x as [sx|sx| |sx mx ex], y as [sy|sy| |sy my ey];
    try reflexivity; try (now rewrite SFmul_comm).
  destruct z as [sz|sz| |sz mz ez]; try reflexivity.
  - apply SFmul_comm.
  - now rewrite (xorb_comm sx), Pos.mul_comm, (Z.add_comm ex).
Qed.
End Commutativity.

Lemma add_f32_comm (x y : word) : add_f32 x y = add_f32 y x.
Proof. now rewrite !add_f32_value, SFadd_comm. Qed.

Lemma madd_f32_comm (x y z : word) : madd_f32 x y z = madd_f32 y x z.
Proof. now rewrite !madd_f32_value, SFfma_comm. Qed.

Lemma cadd_f_comm (a b : complexf) : cadd_f a b = cadd_f b a.
Proof. unfold cadd_f. now rewrite (add_f32_comm (re_f a)), (add_f32_comm (im_f a)). Qed.

Lemma cmul_f_comm (a b : complexf) : cmul_f a b = cmul_f b a.
Proof.
  unfold cmul_f.
  rewrite (madd_f32_comm (re_f a) (re_f b)), (madd_f32_comm (im_f a) (im_f b)),
    (madd_f32_comm (re_f a) (im_f b)), (madd_f32_comm (im_f a) (re_f b)).
  now rewrite (add_f32_comm (madd_f32 (im_f b) (re_f a) _)).
Qed.

(** X15. With IEEE lanes, [preduxp] of two wide packets holds the
    horizontal sum of the first packet in lane 0 and of the second packet
    in lane 1, bit for bit. *)
Theorem preduxp_Packet2cf_predux (vecs : nat -> Packet2cf) :
  preduxp_Packet2cf vecs
  = Packet2cf_of (predux_Packet2cf (vecs 0%nat)) (predux_Packet2cf (vecs 1%nat)).
Proof.
  rewrite !predux_Packet2cf_sum. unfold preduxp_Packet2cf.
  rewrite !sld_8. cbn [e0 e1 e2 e3].
  rewrite (cadd_f_comm (lane0 (vecs 0%nat))). reflexivity.
Qed.

(** X16. With the big-endian mask and IEEE lanes, the product of two wide
    packets does not depend on the order of the factors, bit for bit; the
    same holds for the sum. *)
Theorem pmul_padd_Packet2cf_comm (a b : Packet2cf) :
  pmul_Packet2cf BigEndian a b = pmul_Packet2cf BigEndian b a /\
  padd_Packet2cf a b = padd_Packet2cf b a.
Proof.
  split.
  - rewrite !pmul_Packet2cf_BigEndian.
    now rewrite (cmul_f_comm (lane0 a)), (cmul_f_comm (lane1 a)).
  - unfold padd_Packet2cf, vec_add_4f.
    now rewrite (add_f32_comm (e0 (v a))), (add_f32_comm (e1 (v a))),
      (add_f32_comm (e2 (v a))), (add_f32_comm (e3 (v a))).
Qed.

(** X17. With IEEE lanes, reversing a wide packet changes neither its
    horizontal sum nor (big-endian mask) its horizontal product. *)
Theorem predux_preverse_Packet2cf (a : Packet2cf) :
  predux_Packet2cf (preverse_Packet2cf a) = predux_Packet2cf a /\
  predux_mul_Packet2cf BigEndian (preverse_Packet2cf a)
  = predux_mul_Packet2cf BigEndian a.
Proof.
  rewrite !predux_Packet2cf_sum, !predux_mul_Packet2cf_BigEndian,
    preverse_Packet2cf_lanes.
  split; [apply cadd_f_comm|apply cmul_f_comm].
Qed.

(** X18. With the big-endian mask and IEEE lanes, the conjugate-left
    product [conj a * b] and the conjugate of the conjugate-right product
    [conj (a * conj b)] hold the same numbers lane by lane. *)
Theorem conj_helper_left_right (a b : Packet2cf) :
  same_numbers
    (pconj_Packet2cf BigEndian (conj_helper_Packet2cf_pmul BigEndian false true a b))
    (conj_helper_Packet2cf_pmul BigEndian true false a b).
Proof.
  pose proof (pconj_pmul_Packet2cf_same a (pconj_Packet2cf BigEndian b)) as H.
  unfold conj_helper_Packet2cf_pmul in *.
  replace (pconj_Packet2cf BigEndian (pconj_Packet2cf BigEndian b)) with b in H
    by (unfold pconj_Packet2cf; cbn [v]; now rewrite vec_xor_twice).
  exact H.
Qed.

(** * Reduction functors *)

Section ReducerProperties.
Variables T Packet : Type.
Variables add_T div_T : T -> T -> T.
Variable of_int : Z -> T.
Variable padd : Packet -> Packet -> Packet.
Variable predux : Packet -> T.
Variable size : Z.

Lemma to_int_in_range (z : Z) : INT_MIN <= z <= INT_MAX -> to_int z = Some z.
Proof.
  intros [H1 H2]. unfold to_int.
  apply Z.leb_le in H1, H2. now rewrite H1, H2.
Qed.

Lemma MeanReducer_run_counts (ops : list (reduction T Packet)) :
  forall (s : T) (v : Packet) (a b : Z),
    0 <= a -> 0 <= b ->
    a + Z.of_nat (length ops) <= INT_MAX ->
    b + Z.of_nat (length ops) <= INT_MAX ->
    MeanReducer_run add_T padd ops s v (mk_MeanReducer a b)
    = Some (fold_left add_T (scalars_of ops) s,
            fold_left padd (packets_of ops) v,
            mk_MeanReducer (a + Z.of_nat (length (scalars_of ops)))
                           (b + Z.of_nat (length (packets_of ops)))).
Proof.
  induction ops as [|[t|p] ops IH]; intros s v a b Ha Hb La Lb.
  - cbn. now rewrite !Z.add_0_r.
  - cbn [MeanReducer_run]. unfold MeanReducer_reduce. cbn [scalarCount_ packetCount_].
    cbn [length] in La, Lb. rewrite Nat2Z.inj_succ in La, Lb.
    rewrite to_int_in_range by (unfold INT_MIN, INT_MAX in *; lia).
    rewrite IH by lia.
    change (scalars_of (ReduceScalar t :: ops)) with (t :: scalars_of ops).
    change (packets_of (ReduceScalar t :: ops)) with (packets_of ops).
    cbn [length fold_left]. rewrite Nat2Z.inj_succ. do 2 f_equal. f_equal; lia.
  - cbn [MeanReducer_run]. unfold MeanReducer_reducePacket.
    cbn [scalarCount_ packetCount_].
    cbn [length] in La, Lb. rewrite Nat2Z.inj_succ in La, Lb.
    rewrite to_int_in_range by (unfold INT_MIN, INT_MAX in *; lia).
    rewrite IH by lia.
    change (scalars_of (ReducePacket p :: ops)) with (scalars_of ops).
    change (packets_of (ReducePacket p :: ops)) with (p :: packets_of ops).
    cbn [length fold_left]. rewrite Nat2Z.inj_succ. do 2 f_equal. f_equal; lia.
Qed.

(** X19. After any sequence of calls to [reduce] and [reducePacket] on a
    fresh [MeanReducer], the scalar accumulator is the sum of the scalars,
    the packet accumulator the sum of the packets, and [finalizeBoth]
    divides their total by the number of coefficients seen, scalars plus
    [size] per packet, as long as that number fits an [int]. *)
Theorem MeanReducer_finalizeBoth_count
  (ops : list (reduction T Packet)) (s0 : T) (v0 : Packet) :
  let n := Z.of_nat (length (scalars_of ops)) in
  let k := Z.of_nat (length (packets_of ops)) in
  let s := fold_left add_T (scalars_of ops) s0 in
  let v := fold_left padd (packets_of ops) v0 in
  Z.of_nat (length ops) <= INT_MAX ->
  0 <= size -> n + k * size <= INT_MAX ->
  exists r,
    MeanReducer_run add_T padd ops s0 v0 MeanReducer_new = Some (s, v, r) /\
    scalarCount_ r = n /\ packetCount_ r = k /\
    MeanReducer_finalizeBoth add_T div_T of_int predux size s v r
    = Some (div_T (add_T s (predux v)) (of_int (n + k * size))).
Proof.
  intros n k s v L Hs Hn.
  exists (mk_MeanReducer n k). unfold MeanReducer_new.
  rewrite MeanReducer_run_counts by lia.
  repeat split.
  unfold MeanReducer_finalizeBoth; cbn [scalarCount_ packetCount_].
  assert (0 <= n) by (subst n; lia). assert (0 <= k) by (subst k; lia).
  assert (0 <= k * size) by (apply Z.mul_nonneg_nonneg; assumption).
  rewrite !to_int_in_range by (unfold INT_MIN, INT_MAX in *; lia).
  reflexivity.
Qed.
End ReducerProperties.

Lemma MeanReducer_finalizeBoth_count_witness :
  exists r,
    MeanReducer_run Z.add Z.add [ReduceScalar 1; ReducePacket 2; ReduceScalar 3] 0 0
      MeanReducer_new = Some (4, 2, r) /\
    scalarCount_ r = 2 /\ packetCount_ r = 1 /\
    MeanReducer_finalizeBoth Z.add Z.div (fun n => n) (fun p => p) 2 4 2 r
    = Some ((4 + 2) / 4).
Proof.
  apply (@MeanReducer_finalizeBoth_count Z Z Z.add Z.div (fun n => n) Z.add (fun p => p) 2
           [ReduceScalar 1; ReducePacket 2; ReduceScalar 3] 0 0);
    cbn; unfold INT_MAX; lia.
Defined.

Section ComplexReducers.
Context {K : RealKernel}.
(** [operator+] and [operator*] of [std::complex<float>]. *)
Variables add_T mul_T : complexf -> complexf -> complexf.

Lemma fold_padd_Packet2cf (ps : list Packet2cf) :
  forall acc,
    fold_left padd_Packet2cf ps acc
    = Packet2cf_of (fold_left cadd_f (map lane0 ps) (lane0 acc))
                   (fold_left cadd_f (map lane1 ps) (lane1 acc)).
Proof.
  induction ps as [|p ps IH]; intros acc; [reflexivity|].
  cbn [fold_left map]. now rewrite IH.
Qed.

Lemma fold_pmul_Packet2cf (ps : list Packet2cf) :
  forall acc,
    fold_left (pmul_Packet2cf BigEndian) ps acc
    = Packet2cf_of (fold_left cmul_f (map lane0 ps) (lane0 acc))
                   (fold_left cmul_f (map lane1 ps) (lane1 acc)).
Proof.
  induction ps as [|p ps IH]; intros acc; [reflexivity|].
  cbn [fold_left map]. now rewrite IH, pmul_Packet2cf_BigEndian.
Qed.

(** X20. [SumReducer] over wide packets: accumulating the packets [ps] into
    [acc] and finishing with [finalizeBoth] gives the scalar accumulator
    plus the sum of two lane totals, the first lanes and the second lanes
    each added up from left to right starting from the lane of [acc].
    [ProdReducer], with the big-endian mask, gives in the same way the
    scalar accumulator times the product of the two lane products. *)
Theorem SumReducer_ProdReducer_Packet2cf
  (ps : list Packet2cf) (acc : Packet2cf) (s : complexf) :
  SumReducer_finalizeBoth add_T predux_Packet2cf s
    (fold_left (fun a p => SumReducer_reducePacket padd_Packet2cf p a) ps acc)
  = add_T s (cadd_f (fold_left cadd_f (map lane0 ps) (lane0 acc))
                    (fold_left cadd_f (map lane1 ps) (lane1 acc))) /\
  ProdReducer_finalizeBoth mul_T (predux_mul_Packet2cf BigEndian) s
    (fold_left (fun a p => ProdReducer_reducePacket (pmul_Packet2cf BigEndian) p a) ps acc)
  = mul_T s (cmul_f (fold_left cmul_f (map lane0 ps) (lane0 acc))
                    (fold_left cmul_f (map lane1 ps) (lane1 acc))).
Proof.
  split.
  - unfold SumReducer_finalizeBoth.
    change (fun a p => SumReducer_reducePacket padd_Packet2cf p a) with padd_Packet2cf.
    now rewrite fold_padd_Packet2cf, predux_Packet2cf_sum.
  - unfold ProdReducer_finalizeBoth.
    change (fun a p => ProdReducer_reducePacket (pmul_Packet2cf BigEndian) p a)
      with (pmul_Packet2cf BigEndian).
    now rewrite fold_pmul_Packet2cf, predux_mul_Packet2cf_BigEndian.
Qed.
End ComplexReducers.

(** ** Maximum and minimum over integers *)

Lemma MaxReducer_fold (l : list Z) :
  forall acc,
    let r := fold_left (fun a t => MaxReducer_reduce Z.gtb t a) l acc in
    acc <= r /\ Forall (fun x => x <= r) l /\ (r = acc \/ In r l).
Proof.
  induction l as [|x l IH]; intros acc; cbn [fold_left]; cbv zeta.
  - repeat split; [lia|constructor|now left].
  - specialize (IH (MaxReducer_reduce Z.gtb x acc)). cbv zeta in IH.
    assert (A : acc <= MaxReducer_reduce Z.gtb x acc /\
                x <= MaxReducer_reduce Z.gtb x acc /\
                (MaxReducer_reduce Z.gtb x acc = acc \/
                 MaxReducer_reduce Z.gtb x acc = x)).
    { unfold MaxReducer_reduce. destruct (Z.gtb_spec x acc); lia. }
    revert IH A. generalize (MaxReducer_reduce Z.gtb x acc). intros a.
    generalize (fold_left (fun a0 t => MaxReducer_reduce Z.gtb t a0) l a). intros r.
    intros (H1 & H2 & H3) (A1 & A2 & A3).
    repeat split; [lia|constructor; [lia|assumption]|].
    destruct H3 as [H3|H3]; [|right; now right].
    destruct A3 as [A3|A3]; [left; congruence|right; left; congruence].
Qed.

Lemma MinReducer_fold (l : list Z) :
  forall acc,
    let r := fold_left (fun a t => MinReducer_reduce Z.ltb t a) l acc in
    r <= acc /\ Forall (fun x => r <= x) l /\ (r = acc \/ In r l).
Proof.
  induction l as [|x l IH]; intros acc; cbn [fold_left]; cbv zeta.
  - repeat split; [lia|constructor|now left].
  - specialize (IH (MinReducer_reduce Z.ltb x acc)). cbv zeta in IH.
    assert (A : MinReducer_reduce Z.ltb x acc <= acc /\
                MinReducer_reduce Z.ltb x acc <= x /\
                (MinReducer_reduce Z.ltb x acc = acc \/
                 MinReducer_reduce Z.ltb x acc = x)).
    { unfold MinReducer_reduce. destruct (Z.ltb_spec x acc); lia. }
    revert IH A. generalize (MinReducer_reduce Z.ltb x acc). intros a.
    generalize (fold_left (fun a0 t => MinReducer_reduce Z.ltb t a0) l a). intros r.
    intros (H1 & H2 & H3) (A1 & A2 & A3).
    repeat split; [lia|constructor; [lia|assumption]|].
    destruct H3 as [H3|H3]; [|right; now right].
    destruct A3 as [A3|A3]; [left; congruence|right; left; congruence].
Qed.

Lemma MaxReducer_zeros (init : Z) (n : nat) :
  0 <= init ->
  fold_left (fun a t => MaxReducer_reduce Z.gtb t a) (repeat 0 n) init = init.
Proof.
  intros H. induction n as [|n IH]; [reflexivity|].
  cbn [repeat fold_left]. unfold MaxReducer_reduce at 2.
  destruct (Z.gtb_spec 0 init); [lia|exact IH].
Qed.

(** X21. [MaxReducer] on an integer type with largest value [M] and unary
    minus [neg_T]: the result bounds every element reduced, and it is one of
    them unless all of them are below [initialize()] = [neg_T M], in which
    case it is [initialize()].  For [int] that value is [-INT_MAX]; for
    [unsigned int] the negation wraps around to [1], so that reducing any
    number of zeros gives [1].  [MinReducer], started from [M], gives a
    lower bound that is one of the elements unless all of them exceed [M],
    in which case it is [M]. *)
Theorem MaxReducer_MinReducer_int (neg_T : Z -> Z) (M : Z) (l : list Z) (n : nat) :
  let init := MaxReducer_initialize neg_T M in
  let rmax := MaxReducer_finalize
                (fold_left (fun a t => MaxReducer_reduce Z.gtb t a) l init) in
  let rmin := MinReducer_finalize
                (fold_left (fun a t => MinReducer_reduce Z.ltb t a) l
                   (MinReducer_initialize M)) in
  (Forall (fun x => x <= rmax) l /\
   (In rmax l \/ (rmax = init /\ Forall (fun x => x < init) l))) /\
  (Forall (fun x => rmin <= x) l /\
   (In rmin l \/ (rmin = M /\ Forall (fun x => M < x) l))) /\
  MaxReducer_initialize Z.opp INT_MAX = - INT_MAX /\
  MaxReducer_initialize neg_unsigned UINT_MAX = 1 /\
  MaxReducer_finalize
    (fold_left (fun a t => MaxReducer_reduce Z.gtb t a) (repeat 0 n)
       (MaxReducer_initialize neg_unsigned UINT_MAX)) = 1.
Proof.
  intros init rmax rmin. subst rmax rmin init.
  unfold MaxReducer_finalize, MaxReducer_initialize,
    MinReducer_finalize, MinReducer_initialize.
  split; [|split; [|split; [reflexivity|split; [reflexivity|]]]].
  - destruct (MaxReducer_fold l (neg_T M)) as (H1 & H2 & H3). cbv zeta in *.
    split; [assumption|].
    destruct H3 as [H3|H3]; [|now left].
    destruct (in_dec Z.eq_dec (neg_T M) l) as [I|I].
    + left. now rewrite H3.
    + right. split; [assumption|].
      rewrite Forall_forall in *. intros x Hx.
      specialize (H2 x Hx). rewrite H3 in H2.
      assert (x <> neg_T M) by (intros ->; contradiction). lia.
  - destruct (MinReducer_fold l M) as (H1 & H2 & H3). cbv zeta in *.
    split; [assumption|].
    destruct H3 as [H3|H3]; [|now left].
    destruct (in_dec Z.eq_dec M l) as [I|I].
    + left. now rewrite H3.
    + right. split; [assumption|].
      rewrite Forall_forall in *. intros x Hx.
      specialize (H2 x Hx). rewrite H3 in H2.
      assert (x <> M) by (intros ->; contradiction). lia.
  - change (neg_unsigned UINT_MAX) with 1. apply MaxReducer_zeros. lia.
Qed.

(** * Axis aligned boxes *)

Lemma array_all_spec (n : nat) (f : nat -> bool) :
  array_all n f = true <-> forall k, (k < n)%nat -> f k = true.
Proof.
  unfold array_all. rewrite forallb_forall. split.
  - intros H k Hk. apply H, in_seq. lia.
  - intros H k Hk. apply in_seq in Hk. apply H. lia.
Qed.




Lemma implb_intro (a b : bool) : (a = true -> b = true) -> implb a b = true.
Proof. destruct a, b; cbn; intuition congruence. Qed.




(** X25. A box for which [isNull()] holds contains no point.  The box left by
    [setNull()] is null exactly when it has at least one coefficient and the
    largest scalar is positive: with no coefficient it is not null and
    contains every point. *)
Theorem isNull_contains (n : nat) (M : Z) (b : AlignedBox) (p : VectorType) :
  implb (isNull n b) (negb (contains n b p)) = true /\
  isNull n (setNull M) = negb (Nat.eqb n 0) && (0 <? M) /\
  contains 0 (setNull M) p = true.
Proof.
  repeat split.
  - apply implb_intro. unfold isNull, array_any, contains. intros H.
    apply existsb_exists in H as (k & Hk & Hgt).
    apply in_seq in Hk. apply Z.gtb_lt in Hgt.
    apply negb_true_iff, not_true_is_false. intros Hc.
    apply andb_prop in Hc as [H1 H2].
    rewrite array_all_spec in H1, H2.
    specialize (H1 k ltac:(lia)). specialize (H2 k ltac:(lia)).
    apply Z.leb_le in H1, H2. lia.
  - unfold isNull, array_any, setNull, setConstant; cbn [m_min m_max].
    destruct n as [|n]; [reflexivity|].
    cbn [seq existsb Nat.eqb negb andb].
    destruct (Z.ltb_spec 0 M) as [HM|HM].
    + replace (M >? - M) with true by (symmetry; apply Z.gtb_lt; lia).
      reflexivity.
    + replace (M >? - M) with false
        by (symmetry; rewrite Z.gtb_ltb; apply Z.ltb_ge; lia).
      cbn [orb]. induction (seq 1 n) as [|k l IH]; [reflexivity|].
      cbn [existsb].
      replace (M >? - M) with false
        by (symmetry; rewrite Z.gtb_ltb; apply Z.ltb_ge; lia).
      exact IH.
Qed.

(** Extending the null box by a point whose coefficients lie between
    minus the largest scalar and the largest scalar gives the box of that
    single point. *)
Lemma extend_setNull (M : Z) (p : VectorType) (k : nat) :
  - M <= p k <= M ->
  m_min (extend (setNull M) p) k = m_min (AlignedBox_of_point p) k /\
  m_max (extend (setNull M) p) k = m_max (AlignedBox_of_point p) k.
Proof.
  intros H. unfold extend, setNull, setConstant, AlignedBox_of_point, cwiseMin, cwiseMax;
    cbn [m_min m_max]. lia.
Qed.

Lemma extend_setNull_witness :
  m_min (extend (setNull INT_MAX) (fun _ => 5)) 0%nat
  = m_min (AlignedBox_of_point (fun _ => 5)) 0%nat /\
  m_max (extend (setNull INT_MAX) (fun _ => 5)) 0%nat
  = m_max (AlignedBox_of_point (fun _ => 5)) 0%nat.
Proof.
  apply (@extend_setNull INT_MAX (fun _ => 5) 0%nat). vm_compute. split; discriminate.
Defined.

Lemma fold_left_ext_in {A B : Type} (f g : A -> B -> A) (l : list B) (a : A) :
  (forall x y, In y l -> f x y = g x y) -> fold_left f l a = fold_left g l a.
Proof.
  revert a. induction l as [|y l IH]; intros a H; cbn; [reflexivity|].
  rewrite (H a y (or_introl eq_refl)). apply IH. intros x z Hz. apply H. now right.
Qed.

(** X26. For a box of [Dynamic] dimension, [dim()] is one less than the size
    of the corners, so the squared distance to a point never looks at the
    last coefficient of the point: replacing it leaves the result unchanged.
    The same holds for the distance between two boxes and the last
    coefficient of the corners of the other box. *)
Theorem squaredExteriorDistance_Dynamic (n : nat) (sub mul add : Z -> Z -> Z)
  (b c : AlignedBox) (p : VectorType) (x y : Z) :
  squaredExteriorDistance n None sub mul add b (set_coeff p (n - 1) x)
  = squaredExteriorDistance n None sub mul add b p /\
  squaredExteriorDistance_box n None sub mul add b
    (mk_AlignedBox (set_coeff (m_min c) (n - 1) x) (set_coeff (m_max c) (n - 1) y))
  = squaredExteriorDistance_box n None sub mul add b c.
Proof.
  unfold squaredExteriorDistance, squaredExteriorDistance_box, box_dim.
  split; apply fold_left_ext_in; intros d k Hk; apply in_seq in Hk;
    unfold exterior_step, exterior_step_box, set_coeff; cbn [m_min m_max];
    replace (Nat.eqb k (n - 1)) with false
      by (symmetry; apply Nat.eqb_neq; lia); reflexivity.
Qed.

(** * Tensor storage *)

Lemma array_prod_repeat_0 (n : nat) :
  array_prod (repeat 0 n) = if Nat.eqb n 0 then 1 else 0.
Proof. destruct n; reflexivity. Qed.

(** X27. A storage constructed without dimensions has a null data pointer,
    and its [size()] is [0] except for rank [0], where it is [1]: resizing
    the rank [0] storage to its one element then allocates nothing and
    leaves the pointer null. *)
Theorem TensorStorage_default_size (T : Type) (d : T) (h : heap T) (NumIndices_ : nat) :
  m_data (TensorStorage_default NumIndices_) = 0 /\
  TensorStorage_size (TensorStorage_default NumIndices_)
  = (if Nat.eqb NumIndices_ 0 then 1 else 0) /\
  TensorStorage_resize d h (TensorStorage_default 0) 1 [] = (mk_TensorStorage 0 [], h).
Proof.
  repeat split. apply array_prod_repeat_0.
Qed.

(** X28. [resize] to the size the storage already has keeps the data pointer
    and allocates or frees nothing; only the dimensions are replaced. *)
Theorem TensorStorage_resize_same_size (T : Type) (d : T) (h : heap T)
  (s : TensorStorage) (size : Z) (nbDimensions : list Z) :
  size = TensorStorage_size s ->
  TensorStorage_resize d h s size nbDimensions
  = (mk_TensorStorage (m_data s) nbDimensions, h).
Proof.
  intros ->. unfold TensorStorage_resize, TensorStorage_size.
  now rewrite Z.eqb_refl.
Qed.

Lemma TensorStorage_resize_same_size_witness :
  TensorStorage_resize 0 (mk_heap (fun q => if q =? 1 then Some [7; 8; 9; 10; 11; 12] else None) 2)
    (mk_TensorStorage 1 [2; 3]) 6 [3; 2]
  = (mk_TensorStorage 1 [3; 2],
     mk_heap (fun q => if q =? 1 then Some [7; 8; 9; 10; 11; 12] else None) 2).
Proof.
  apply (@TensorStorage_resize_same_size Z 0
           (mk_heap (fun q => if q =? 1 then Some [7; 8; 9; 10; 11; 12] else None) 2)
           (mk_TensorStorage 1 [2; 3]) 6 [3; 2]).
  reflexivity.
Defined.

(** X29. [resize] to a different size releases the block the storage held
    and, for a size other than [0], takes a block of [size] elements at an
    address that was not live; for size [0] the pointer becomes null.  Every
    other block of the heap is left as it was. *)
Theorem TensorStorage_resize_reallocates (T : Type) (d : T) (h : heap T)
  (s : TensorStorage) (size : Z) (nbDimensions : list Z) :
  heap_wf h -> m_data s < next_block h -> size <> TensorStorage_size s ->
  let s' := fst (TensorStorage_resize d h s size nbDimensions) in
  let h' := snd (TensorStorage_resize d h s size nbDimensions) in
  m_dimensions s' = nbDimensions /\
  (if size =? 0 then m_data s' = 0
   else m_data s' <> 0 /\ live h (m_data s') = None /\
        block h' (m_data s') = repeat d (Z.to_nat size)) /\
  (m_data s <> 0 -> live h' (m_data s) = None) /\
  (forall q, q <> m_data s -> q <> m_data s' -> live h' q = live h q) /\
  heap_wf h'.
Proof.
  intros [Hpos Hfresh] Hlt Hne. unfold heap_wf, TensorStorage_resize, TensorStorage_size in *.
  replace (size =? array_prod (m_dimensions s)) with false
    by (symmetry; now apply Z.eqb_neq).
  cbn [negb]. destruct (Z.eqb_spec size 0) as [->|Hsz]; cbn [negb fst snd].
  - unfold conditional_aligned_delete_auto.
    destruct (Z.eqb_spec (m_data s) 0) as [E|E]; cbn [m_data m_dimensions live next_block].
    + repeat split; auto; try congruence.
    + repeat split; auto.
      * intros _. now rewrite Z.eqb_refl.
      * intros q Hq _. now replace (q =? m_data s) with false
          by (symmetry; now apply Z.eqb_neq).
      * intros q Hq. replace (q =? m_data s) with false
          by (symmetry; apply Z.eqb_neq; lia). now apply Hfresh.
  - unfold conditional_aligned_new_auto, conditional_aligned_delete_auto, block.
    destruct (Z.eqb_spec (m_data s) 0) as [E|E];
      cbn [m_data m_dimensions live next_block fst snd].
    + rewrite Z.eqb_refl. repeat split; auto; try lia; try congruence.
      * apply Hfresh; lia.
      * intros q _ Hq. now replace (q =? next_block h) with false
          by (symmetry; now apply Z.eqb_neq).
      * intros q Hq. replace (q =? next_block h) with false
          by (symmetry; apply Z.eqb_neq; lia). apply Hfresh; lia.
    + rewrite Z.eqb_refl. repeat split; auto; try lia.
      * apply Hfresh; lia.
      * intros _. replace (m_data s =? next_block h) with false
          by (symmetry; apply Z.eqb_neq; lia). now rewrite Z.eqb_refl.
      * intros q Hq1 Hq2.
        replace (q =? next_block h) with false by (symmetry; now apply Z.eqb_neq).
        now replace (q =? m_data s) with false by (symmetry; now apply Z.eqb_neq).
      * intros q Hq. replace (q =? next_block h) with false
          by (symmetry; apply Z.eqb_neq; lia).
        replace (q =? m_data s) with false by (symmetry; apply Z.eqb_neq; lia).
        apply Hfresh; lia.
Qed.

Lemma TensorStorage_resize_reallocates_witness :
  let h := mk_heap (fun q => if q =? 1 then Some [7; 8] else None) 2 in
  let s := mk_TensorStorage 1 [2] in
  let s' := fst (TensorStorage_resize 0 h s 3 [3]) in
  let h' := snd (TensorStorage_resize 0 h s 3 [3]) in
  m_dimensions s' = [3] /\
  (if 3 =? 0 then m_data s' = 0
   else m_data s' <> 0 /\ live h (m_data s') = None /\
        block h' (m_data s') = repeat 0 (Z.to_nat 3)) /\
  (m_data s <> 0 -> live h' (m_data s) = None) /\
  (forall q, q <> m_data s -> q <> m_data s' -> live h' q = live h q) /\
  heap_wf h'.
Proof.
  apply (@TensorStorage_resize_reallocates Z 0
           (mk_heap (fun q => if q =? 1 then Some [7; 8] else None) 2)
           (mk_TensorStorage 1 [2]) 3 [3]).
  - split; [reflexivity|]. intros q Hq. cbn [live next_block] in *.
    replace (q =? 1) with false by (symmetry; apply Z.eqb_neq; lia). reflexivity.
  - reflexivity.
  - vm_compute. discriminate.
Defined.

(** Assigning a storage to itself changes nothing, and swapping two
    storages twice gives them back. *)
Lemma TensorStorage_assign_self_swap (T : Type) (d : T) (s : objects T)
  (this : nat) (a b : TensorStorage) :
  TensorStorage_assign d s this this = s /\
  TensorStorage_swap (fst (TensorStorage_swap a b)) (snd (TensorStorage_swap a b))
  = (a, b).
Proof.
  split; [|reflexivity].
  unfold TensorStorage_assign. now rewrite Nat.eqb_refl.
Qed.

(** X30. Assignment from another storage makes a deep copy: the target gets
    the dimensions of the source and a block of its own holding the same
    elements, the source and its block are untouched, and the block the
    target held before is released. *)
Theorem TensorStorage_assign_deep_copy (T : Type) (d : T) (s : objects T)
  (this other : nat) :
  this <> other ->
  heap_wf (object_heap s) ->
  m_data (object s this) < next_block (object_heap s) ->
  m_data (object s other) < next_block (object_heap s) ->
  m_data (object s this) = 0 \/ m_data (object s this) <> m_data (object s other) ->
  length (block (object_heap s) (m_data (object s other)))
  = Z.to_nat (array_prod (m_dimensions (object s other))) ->
  let s' := TensorStorage_assign d s this other in
  object s' other = object s other /\
  m_dimensions (object s' this) = m_dimensions (object s other) /\
  m_data (object s' this) <> m_data (object s other) /\
  block (object_heap s') (m_data (object s' this))
  = block (object_heap s) (m_data (object s other)) /\
  block (object_heap s') (m_data (object s other))
  = block (object_heap s) (m_data (object s other)) /\
  (m_data (object s this) <> 0 ->
   live (object_heap s') (m_data (object s this)) = None).
Proof.
  intros Hneq [Hpos Hfresh] Hthis Hother Hsep Hlen.
  unfold TensorStorage_assign.
  replace (Nat.eqb this other) with false by (symmetry; now apply Nat.eqb_neq).
  cbn [negb]. unfold TensorStorage_copy, conditional_aligned_new_auto,
    TensorStorage_swap, TensorStorage_destroy, conditional_aligned_delete_auto,
    smart_copy.
  cbn [m_data m_dimensions live next_block object object_heap].
  set (h := object_heap s) in *. set (o := object s other) in *.
  set (t := object s this) in *. set (n := array_prod (m_dimensions o)) in *.
  unfold block in *.
  assert (Hcopy : firstn (Z.to_nat n)
                    match live h (m_data o) with Some l => l | None => [] end
                  ++ skipn (Z.to_nat n) (repeat d (Z.to_nat n))
                  = match live h (m_data o) with Some l => l | None => [] end).
  { rewrite firstn_all2 by lia.
    rewrite skipn_all2 by (rewrite repeat_length; lia).
    apply app_nil_r. }
  assert (Ho : (m_data o =? next_block h) = false) by (apply Z.eqb_neq; lia).
  assert (Ht : (m_data t =? next_block h) = false) by (apply Z.eqb_neq; lia).
  assert (Hother_this : Nat.eqb other this = false) by (apply Nat.eqb_neq; congruence).
  destruct (Z.eqb_spec (m_data t) 0) as [E|E];
    cbn [m_data m_dimensions live next_block object object_heap];
    rewrite ?Nat.eqb_refl, ?Hother_this;
    cbn [m_data m_dimensions live next_block object object_heap];
    rewrite ?Z.eqb_refl, ?Ho.
  - cbn [option_map]. rewrite Hcopy.
    repeat split; try reflexivity; try lia; try congruence.
  - assert (Hnt : (next_block h =? m_data t) = false) by (apply Z.eqb_neq; lia).
    assert (Hot : (m_data o =? m_data t) = false)
      by (apply Z.eqb_neq; destruct Hsep; congruence).
    rewrite ?Hnt, ?Hot, ?Z.eqb_refl, ?Ho. cbn [option_map]. rewrite Hcopy.
    repeat split; try reflexivity; try lia; try congruence.
Qed.

Lemma TensorStorage_assign_deep_copy_witness :
  let s := mk_objects
             (fun o => if Nat.eqb o 0 then mk_TensorStorage 1 [2]
                       else mk_TensorStorage 2 [3])
             (mk_heap (fun q => if q =? 1 then Some [7; 8]
                                else if q =? 2 then Some [1; 2; 3] else None) 3) in
  let s' := TensorStorage_assign 0 s 0 1 in
  object s' 1%nat = object s 1%nat /\
  m_dimensions (object s' 0%nat) = m_dimensions (object s 1%nat) /\
  m_data (object s' 0%nat) <> m_data (object s 1%nat) /\
  block (object_heap s') (m_data (object s' 0%nat))
  = block (object_heap s) (m_data (object s 1%nat)) /\
  block (object_heap s') (m_data (object s 1%nat))
  = block (object_heap s) (m_data (object s 1%nat)) /\
  (m_data (object s 0%nat) <> 0 ->
   live (object_heap s') (m_data (object s 0%nat)) = None).
Proof.
  apply (@TensorStorage_assign_deep_copy Z 0
           (mk_objects
              (fun o => if Nat.eqb o 0 then mk_TensorStorage 1 [2]
                        else mk_TensorStorage 2 [3])
              (mk_heap (fun q => if q =? 1 then Some [7; 8]
                                 else if q =? 2 then Some [1; 2; 3] else None) 3))
           0%nat 1%nat).
  - discriminate.
  - split; [reflexivity|]. intros q Hq. cbn [live next_block object_heap] in *.
    replace (q =? 1) with false by (symmetry; apply Z.eqb_neq; lia).
    replace (q =? 2) with false by (symmetry; apply Z.eqb_neq; lia). reflexivity.
  - reflexivity.
  - reflexivity.
  - right. vm_compute. discriminate.
  - reflexivity.
Defined.
